(** * fintual.py: a portfolio of randomly priced stocks

    A shallow embedding of [src/fintual.py] and the verification of its
    specification.

    Modelling conventions.
    - Python [float] values are modelled by the rational numbers they denote
      ([Q]) and their operations by exact arithmetic.  The rounding of the
      binary64 operations is outside the model; for this reason the
      theorems about computed values and printed figures are stated with
      explicit tolerances (a millionth on a computed value, half a hundredth
      between a value and the two decimals printed for it), which the
      rounded computation meets as well, and never rely on two computations
      giving the very same digits.  True division is fallible, as in
      Python: a zero divisor raises [ZeroDivisionError].
    - The [random] module is modelled by an entropy tape [nat -> Z] read
      through a cursor: every draw consumes one cell, so that theorems
      quantify over every possible sequence of random outcomes.
    - [print] appends one line to [stdout].
    - Python [str] values that come from the caller (the date strings, and
      so the messages and the printed lines that quote them) are sequences
      of Unicode code points; [lit] turns a literal of the program into such
      a string.
    - Library code the program calls is modelled from CPython:
      [random.randint] and [random.sample], [datetime.strptime] with the
      regular expression it builds for ["%Y-%m-%d"] (where [\d] is any
      decimal digit of Unicode 14.0, the version of CPython 3.11), [int] on
      strings, the ordinal of a date, and
      [float.__pow__], which raises [OverflowError] when the power leaves
      the range of finite floats.
    - Exceptions are values of [exn]; a computation of type [Py A] maps a
      world to a result-or-exception and the world it leaves behind. *)

From Stdlib Require Import ZArith NArith QArith Qabs Qround Lia Lqa List Bool.
From Stdlib Require Import Ascii String Permutation.
Import ListNotations.

Local Open Scope Z_scope.

(** ** Strings *)

(** A [str]: the sequence of its Unicode code points. *)
Definition str : Type := list N.

(** The [str] of a literal of the program text. *)
Definition lit (s : string) : str := map N_of_ascii (list_ascii_of_string s).

(** ** Exceptions, worlds and the computation monad *)

Inductive exn : Type :=
| ValueError
| ZeroDivisionError
| OverflowError
| InvalidDateFormat (message : str).

(** [class Stock]: a stock is its ticker [name]. *)
Record Stock : Type := mkStock { name : string }.

(** The part of the interpreter state the program touches: the attribute
    [self.stocks] of the portfolio at hand, the random generator and the
    lines printed so far. *)
Record World : Type := mkWorld {
  stocks : list Stock;
  tape   : nat -> Z;
  cursor : nat;
  stdout : list str
}.

Definition Py (A : Type) : Type := World -> (exn + A) * World.

Definition ret {A} (a : A) : Py A := fun w => (inr a, w).

Definition raise {A} (e : exn) : Py A := fun w => (inl e, w).

Definition bind {A B} (c : Py A) (k : A -> Py B) : Py B :=
  fun w => match c w with
           | (inr a, w') => k a w'
           | (inl e, w') => (inl e, w')
           end.

Notation "x <- c ;; k" := (bind c (fun x => k))
  (at level 61, c at next level, right associativity).
Notation "c ;;; k" := (bind c (fun _ => k))
  (at level 61, right associativity).

(** Lift a pure fallible computation. *)
Definition lift {A} (r : exn + A) : Py A := fun w => (r, w).

Definition set_cursor (n : nat) (w : World) : World :=
  mkWorld (stocks w) (tape w) n (stdout w).

Definition set_stocks (l : list Stock) (w : World) : World :=
  mkWorld l (tape w) (cursor w) (stdout w).

(** [print(line)] *)
Definition print (line : str) : Py unit :=
  fun w => (inr tt, mkWorld (stocks w) (tape w) (cursor w) (stdout w ++ [line])).

(** ** The [random] module *)

(** [Random._randbelow(n)]: an arbitrary integer in [0, n). *)
Definition _randbelow (n : Z) : Py Z :=
  fun w => (inr (if n <=? 0 then 0 else tape w (cursor w) mod n),
            set_cursor (S (cursor w)) w).

(** [random.randint(a, b)] is [randrange(a, b + 1)]: it raises [ValueError]
    on an empty range and otherwise returns [a + _randbelow(b + 1 - a)]. *)
Definition randint (a b : Z) : Py Z :=
  let width := b + 1 - a in
  if 0 <? width then r <- _randbelow width ;; ret (a + r)
  else raise ValueError.

(** In-place assignment [pool[j] = y]. *)
Fixpoint list_set {A} (j : nat) (y : A) (pool : list A) : list A :=
  match pool, j with
  | [], _ => []
  | _ :: p, O => y :: p
  | a :: p, S j' => a :: list_set j' y p
  end.

(** The selection loop of [random.sample] over a pool (the branch CPython
    takes for populations of at most 21 elements):
    [for i in range(k): j = randbelow(n - i); result[i] = pool[j];
     pool[j] = pool[n - i - 1]].
    [live] is [n - i] and [todo] is [k - i]. *)
Fixpoint sample_pool {A} (pool : list A) (live todo : nat) : Py (list A) :=
  match todo with
  | O => ret []
  | S todo' =>
      j <- _randbelow (Z.of_nat live) ;;
      match nth_error pool (Z.to_nat j), nth_error pool (live - 1) with
      | Some x, Some y =>
          rest <- sample_pool (list_set (Z.to_nat j) y pool) (live - 1) todo' ;;
          ret (x :: rest)
      | _, _ => raise ValueError (* an index out of range: never taken *)
      end
  end.

(** [random.sample(population, k)] *)
Definition sample {A} (population : list A) (k : Z) : Py (list A) :=
  let n := List.length population in
  if (0 <=? k) && (k <=? Z.of_nat n)
  then sample_pool population n (Z.to_nat k)
  else raise ValueError.

(** ** Arithmetic on floats *)

(** [x / y] *)
Definition truediv (x y : Q) : exn + Q :=
  if Qeq_bool y 0 then inl ZeroDivisionError else inr (x / y)%Q.

(** ** Constants of the module *)

Local Open Scope string_scope.

Definition CUSTOM_RANDOM_STOCKS : list string :=
  ["MSFT"; "AAPL"; "AMZN"; "GOOGL"; "TSLA"; "META"; "NVDA"; "FINTUAL"].

Definition MESSAGE_ERROR : string :=
  "Invalid date format. Please use the format yyyy-mm-dd.".

(** [InvalidDateFormat(date)]: the exception with its message
    [f"{date} is not a valid date. {MESSAGE_ERROR}"]. *)
Definition InvalidDateFormat__init__ (date : str) : exn :=
  InvalidDateFormat (date ++ lit " is not a valid date. " ++ lit MESSAGE_ERROR)%list.

(** ** class Stock *)

(** [randint(1, 1000) + randint(1, 100) / 100] *)
Definition _generate_random_price (self : Stock) : Py Q :=
  units <- randint 1 1000 ;;
  cents <- randint 1 100 ;;
  frac <- lift (truediv (inject_Z cents) 100) ;;
  ret (inject_Z units + frac)%Q.

Definition get_price (self : Stock) : Py Q := _generate_random_price self.

(** ** [datetime.strptime(date_str, "%Y-%m-%d")]

    [_strptime] compiles the format into the regular expression
    [(?P<Y>\d\d\d\d)-(?P<m>1[0-2]|0[1-9]|[1-9])-(?P<d>3[0-1]|[1-2]\d|0[1-9]|[1-9]| [1-9])],
    matches it at the start of the string, rejects unconverted trailing
    data, converts the three groups with [int] and builds the date, whose
    constructor checks the calendar.  In a [str] pattern [\d] matches every
    Unicode decimal digit (category Nd), while the bracketed classes are the
    ASCII ranges written. *)

Local Close Scope string_scope.

(** The first code points of the 66 blocks of ten consecutive decimal
    digits (category Nd, values 0 to 9 in order) of Unicode 14.0. *)
Definition DECIMAL_DIGIT_BLOCKS : list N :=
  [48; 1632; 1776; 1984; 2406; 2534; 2662; 2790; 2918; 3046; 3174; 3302;
   3430; 3558; 3664; 3792; 3872; 4160; 4240; 6112; 6160; 6470; 6608; 6784;
   6800; 6992; 7088; 7232; 7248; 42528; 43216; 43264; 43472; 43504; 43600;
   44016; 65296; 66720; 68912; 69734; 69872; 69942; 70096; 70384; 70736;
   70864; 71248; 71360; 71472; 71904; 72016; 72784; 73040; 73120; 92768;
   92864; 93008; 120782; 120792; 120802; 120812; 120822; 123200; 123632;
   125264; 130032]%N.

(** The value of the decimal digit [c], if [c] is one. *)
Definition decimal_value (c : N) : option Z :=
  match find (fun b => (b <=? c) && (c <? b + 10))%N DECIMAL_DIGIT_BLOCKS with
  | Some b => Some (Z.of_N (c - b))
  | None => None
  end.

Definition is_decimal (c : N) : bool :=
  match decimal_value c with Some _ => true | None => false end.

Inductive regex : Type :=
| Chr (p : N -> bool)
| Seq (r1 r2 : regex)
| Alt (r1 r2 : regex).

(** Backtracking matcher: every way for [r] to match a prefix of [s], as
    (matched text, remaining text), in the order the engine tries them. *)
Fixpoint rmatch (r : regex) (s : str) : list (str * str) :=
  match r with
  | Chr p => match s with
             | c :: s' => if p c then [([c], s')] else []
             | [] => []
             end
  | Seq r1 r2 =>
      flat_map (fun m1 => map (fun m2 => (fst m1 ++ fst m2, snd m2))
                              (rmatch r2 (snd m1)))
               (rmatch r1 s)
  | Alt r1 r2 => rmatch r1 s ++ rmatch r2 s
  end%list.

(** The class [[lo-hi]] of the characters from [lo] to [hi]. *)
Definition between (lo hi : ascii) (c : N) : bool :=
  ((N_of_ascii lo <=? c) && (c <=? N_of_ascii hi))%N.

Definition is_char (a : ascii) : N -> bool := between a a.

(** [\d] *)
Definition digit : regex := Chr is_decimal.

(** [%Y]: [\d\d\d\d] *)
Definition re_Y : regex := Seq digit (Seq digit (Seq digit digit)).

(** [%m]: [1[0-2]|0[1-9]|[1-9]] *)
Definition re_m : regex :=
  Alt (Seq (Chr (is_char "1")) (Chr (between "0" "2")))
 (Alt (Seq (Chr (is_char "0")) (Chr (between "1" "9")))
      (Chr (between "1" "9"))).

(** [%d]: [3[0-1]|[1-2]\d|0[1-9]|[1-9]| [1-9]] *)
Definition re_d : regex :=
  Alt (Seq (Chr (is_char "3")) (Chr (between "0" "1")))
 (Alt (Seq (Chr (between "1" "2")) digit)
 (Alt (Seq (Chr (is_char "0")) (Chr (between "1" "9")))
 (Alt (Chr (between "1" "9"))
      (Seq (Chr (is_char " ")) (Chr (between "1" "9")))))).

Definition re_dash : regex := Chr (is_char "-").

(** The part of the pattern after the year, [-(?P<m>...)-(?P<d>...)]: the
    groups [m] and [d] of every match, with the text left after it. *)
Definition match_month_day (s : str) : list (str * str * str) :=
  flat_map (fun m1 =>
  flat_map (fun mm =>
  flat_map (fun m2 =>
  map (fun md => (fst mm, fst md, snd md))
      (rmatch re_d (snd m2)))
      (rmatch re_dash (snd mm)))
      (rmatch re_m (snd m1)))
      (rmatch re_dash s).

(** [format_regex.match(data_string)]: the groups [Y], [m], [d] of the first
    successful match, with the text left after it. *)
Definition format_regex_match (s : str)
  : option (str * (str * str * str)) :=
  hd_error
    (flat_map (fun mY => map (fun t => (fst mY, t)) (match_month_day (snd mY)))
              (rmatch re_Y s)).

(** The characters [int] skips around a number. *)
Definition INT_WHITESPACE : list N :=
  [9; 10; 11; 12; 13; 32; 133; 160; 5760; 8192; 8193; 8194; 8195; 8196; 8197;
   8198; 8199; 8200; 8201; 8202; 8232; 8233; 8239; 8287; 12288]%N.

Definition is_space (c : N) : bool := existsb (N.eqb c) INT_WHITESPACE.

Fixpoint lstrip (s : str) : str :=
  match s with
  | c :: s' => if is_space c then lstrip s' else s
  | [] => s
  end.

Definition rstrip (s : str) : str := rev (lstrip (rev s)).

(** The digits after the first one: decimal digits, where a single
    underscore may stand between two of them. *)
Fixpoint int_digits (acc : Z) (s : str) : exn + Z :=
  match s with
  | [] => inr acc
  | c :: s' =>
      match decimal_value c with
      | Some v => int_digits (10 * acc + v) s'
      | None =>
          if is_char "_" c then
            match s' with
            | d :: s'' =>
                match decimal_value d with
                | Some v => int_digits (10 * acc + v) s''
                | None => inl ValueError
                end
            | [] => inl ValueError
            end
          else inl ValueError
      end
  end.

(** An unsigned decimal literal. *)
Definition int_unsigned (s : str) : exn + Z :=
  match s with
  | c :: s' =>
      match decimal_value c with
      | Some v => int_digits v s'
      | None => inl ValueError
      end
  | [] => inl ValueError
  end.

(** [int(s)] for a [str]: blanks around the number are skipped, a sign may
    come first, the digits may be of any script. *)
Definition py_int (s : str) : exn + Z :=
  match rstrip (lstrip s) with
  | c :: t =>
      if is_char "+" c then int_unsigned t
      else if is_char "-" c then
        match int_unsigned t with
        | inr n => inr (- n)
        | inl e => inl e
        end
      else int_unsigned (c :: t)
  | [] => inl ValueError
  end.

Local Close Scope string_scope.

(** A [datetime] whose time of day is midnight, as [strptime] builds it for
    a format without time directives. *)
Record datetime : Type := mkDatetime { year : Z; month : Z; day : Z }.

Definition MINYEAR : Z := 1.
Definition MAXYEAR : Z := 9999.

Definition _is_leap (y : Z) : bool :=
  (y mod 4 =? 0) && (negb (y mod 100 =? 0) || (y mod 400 =? 0)).

Definition _DAYS_IN_MONTH : list Z :=
  [-1; 31; 28; 31; 30; 31; 30; 31; 31; 30; 31; 30; 31].

Definition _DAYS_BEFORE_MONTH : list Z :=
  [-1; 0; 31; 59; 90; 120; 151; 181; 212; 243; 273; 304; 334].

Definition _days_in_month (y m : Z) : Z :=
  if (m =? 2) && _is_leap y then 29
  else nth (Z.to_nat m) _DAYS_IN_MONTH 0.

Definition _days_before_year (y : Z) : Z :=
  let y' := y - 1 in y' * 365 + y' / 4 - y' / 100 + y' / 400.

Definition _days_before_month (y m : Z) : Z :=
  nth (Z.to_nat m) _DAYS_BEFORE_MONTH 0
  + (if (2 <? m) && _is_leap y then 1 else 0).

Definition _ymd2ord (y m d : Z) : Z :=
  _days_before_year y + _days_before_month y m + d.

Definition toordinal (t : datetime) : Z := _ymd2ord (year t) (month t) (day t).

(** The constructor's [_check_date_fields]. *)
Definition new_datetime (y m d : Z) : exn + datetime :=
  if negb ((MINYEAR <=? y) && (y <=? MAXYEAR)) then inl ValueError
  else if negb ((1 <=? m) && (m <=? 12)) then inl ValueError
  else if negb ((1 <=? d) && (d <=? _days_in_month y m)) then inl ValueError
  else inr (mkDatetime y m d).

Definition strptime (data_string : str) : exn + datetime :=
  match format_regex_match data_string with
  | None => inl ValueError
  | Some (gY, (gm, gd, rest)) =>
      match rest with
      | _ :: _ => inl ValueError
      | [] =>
          match py_int gY, py_int gm, py_int gd with
          | inr y, inr m, inr d => new_datetime y m d
          | _, _, _ => inl ValueError
          end
      end
  end.

(** [(end_date - start_date).days] *)
Definition timedelta_days (end_date start_date : datetime) : Z :=
  toordinal end_date - toordinal start_date.

(** ** Formatting and the power operator *)

(** Round to the nearest integer, ties to even. *)
Definition round_half_even (x : Q) : Z :=
  let f := Qfloor x in
  match ((x - inject_Z f) ?= 1 # 2)%Q with
  | Lt => f
  | Gt => f + 1
  | Eq => if Z.even f then f else f + 1
  end.

Definition digit_char (n : Z) : ascii := ascii_of_nat (48 + Z.to_nat n).

(** Decimal numeral of a natural number, most significant digit first.
    [fuel] bounds the number of digits. *)
Fixpoint decimal_digits (fuel : nat) (n : Z) (acc : string) : string :=
  match fuel with
  | O => acc
  | S fuel' =>
      let acc' := String (digit_char (n mod 10)) acc in
      if n / 10 =? 0 then acc' else decimal_digits fuel' (n / 10) acc'
  end.

Definition str_of_nonneg (n : Z) : string :=
  decimal_digits (S (Z.to_nat (Z.log2 n))) n EmptyString.

(** [f"{x:.2f}"]: sign, integer part, a point and two decimals, the value
    rounded to the nearest hundredth (ties to even). *)
Definition format_2f (x : Q) : string :=
  let n := round_half_even (Qabs x * 100) in
  ((if Qlt_le_dec x 0 then "-" else "")
   ++ str_of_nonneg (n / 100) ++ "."
   ++ String (digit_char (n / 10 mod 10)) (String (digit_char (n mod 10)) ""))%string.

Definition is_integral (y : Q) : bool := Qnum y mod Zpos (Qden y) =? 0.

(** Exact results at or beyond this bound round to infinity in binary64. *)
Definition OVERFLOW_BOUND : Q := inject_Z (2 ^ 1024 - 2 ^ 970).

(** Pure computations that may raise. *)
Definition ebind {A B} (r : exn + A) (k : A -> exn + B) : exn + B :=
  match r with
  | inr a => k a
  | inl e => inl e
  end.

Notation "x <-! c ;; k" := (ebind c (fun x => k))
  (at level 61, c at next level, right associativity).

Section Interpreter.

(** [x ** y] at a non-integral exponent [y] is irrational in general; its
    outcome (a value or an exception) is a parameter of the development. *)
Variable pow_frac : Q -> Q -> exn + Q.

(** [float.__pow__]: [x ** y].  At an integral exponent the result is the
    exact power; a zero base to a negative power raises
    [ZeroDivisionError] and a result out of the range of finite floats
    raises [OverflowError]. *)
Definition float_pow (x y : Q) : exn + Q :=
  if is_integral y then
    let n := Qnum y / Zpos (Qden y) in
    if Qeq_bool x 0 && (n <? 0) then inl ZeroDivisionError
    else
      let r := Qpower x n in
      if Qle_bool OVERFLOW_BOUND (Qabs r) then inl OverflowError else inr r
  else pow_frac x y.

(** ** class Portfolio *)

Definition _generate_random_stocks : Py (list Stock) :=
  stock_count <- randint 1 (Z.of_nat (List.length CUSTOM_RANDOM_STOCKS)) ;;
  names <- sample CUSTOM_RANDOM_STOCKS stock_count ;;
  ret (map mkStock names).

(** [Portfolio.__init__]: [self.stocks = self._generate_random_stocks()] *)
Definition Portfolio__init__ : Py unit :=
  l <- _generate_random_stocks ;;
  fun w => (inr tt, set_stocks l w).

(** [try: return datetime.strptime(date_str, DATE_FORMAT)
     except ValueError: raise InvalidDateFormat(date_str)] *)
Definition _validate_date_format (date_str : str) : exn + datetime :=
  match strptime date_str with
  | inr t => inr t
  | inl ValueError => inl (InvalidDateFormat__init__ date_str)
  | inl e => inl e
  end.

(** [abs((end_date - start_date).days)] *)
Definition _calculate_days_difference (start_date end_date : datetime) : Z :=
  Z.abs (timedelta_days end_date start_date).

(** [self._calculate_days_difference(start_date, end_date) / 365] *)
Definition _calculate_years_difference (start_date end_date : datetime)
  : exn + Q :=
  truediv (inject_Z (_calculate_days_difference start_date end_date)) 365.

(** [((final_price / initial_price) ** (1 / years) - 1) * 100] *)
Definition _calculate_annualized_return (initial_price final_price years : Q)
  : exn + Q :=
  ratio <-! truediv final_price initial_price ;;
  exponent <-! truediv 1 years ;;
  p <-! float_pow ratio exponent ;;
  inr ((p - 1) * 100)%Q.

(** [(final_price - initial_price) / initial_price * 100] *)
Definition _calculate_profit_percentage (initial_price final_price : Q)
  : exn + Q :=
  q <-! truediv (final_price - initial_price) initial_price ;;
  inr (q * 100)%Q.

(** [sum(...)] over the prices, drawn stock by stock. *)
Fixpoint sum_prices (acc : Q) (l : list Stock) : Py Q :=
  match l with
  | [] => ret acc
  | stock :: l' => p <- get_price stock ;; sum_prices (acc + p)%Q l'
  end.

(** [sum(stock.get_price() for stock in self.stocks)] *)
Definition _get_portfolio_value : Py Q :=
  fun w => sum_prices 0 (stocks w) w.

Definition calculate_profit_between (start_date_str end_date_str : str)
  : Py unit :=
  lift (_validate_date_format start_date_str) ;;;
  lift (_validate_date_format end_date_str) ;;;
  initial_price <- _get_portfolio_value ;;
  final_price <- _get_portfolio_value ;;
  total_profit <- lift (_calculate_profit_percentage initial_price final_price) ;;
  print (lit "Profit between " ++ start_date_str ++ lit " and "
         ++ end_date_str ++ lit ": " ++ lit (format_2f total_profit)
         ++ lit "%")%list.

Definition calculate_profit_annualized (start_date_str end_date_str : str)
  : Py unit :=
  start_date <- lift (_validate_date_format start_date_str) ;;
  end_date <- lift (_validate_date_format end_date_str) ;;
  initial_price <- _get_portfolio_value ;;
  final_price <- _get_portfolio_value ;;
  years <- lift (_calculate_years_difference start_date end_date) ;;
  total_profit <- lift (_calculate_profit_percentage initial_price final_price) ;;
  annualized_profit <-
    lift (_calculate_annualized_return initial_price final_price years) ;;
  print (lit "Profit since " ++ start_date_str ++ lit ": "
         ++ lit (format_2f total_profit) ++ lit "%")%list ;;;
  print (lit "Annualized profit: " ++ lit (format_2f annualized_profit)
         ++ lit "%")%list.

End Interpreter.

(** * Vocabulary of the specification *)

(** The price made of [units] dollars and [cents] hundredths. *)
Definition price_of (units cents : Z) : Q :=
  (inject_Z units + inject_Z cents / 100)%Q.

(** The outcome of [randint(1, 1000)] in world [w]. *)
Definition drawn_units (w : World) : Z := 1 + tape w (cursor w) mod 1000.

(** The outcome of the [randint(1, 100)] that follows it. *)
Definition drawn_cents (w : World) : Z := 1 + tape w (S (cursor w)) mod 100.

(** A computation that never assigns [self.stocks]. *)
Definition keeps_stocks {A} (c : Py A) : Prop :=
  forall w, stocks (snd (c w)) = stocks w.

Local Open Scope string_scope.

(** [n] written with two decimal digits. *)
Definition pad2 (n : Z) : string :=
  String (digit_char (n / 10 mod 10)) (String (digit_char (n mod 10)) "").

(** [n] written with four decimal digits. *)
Definition pad4 (n : Z) : string :=
  String (digit_char (n / 1000 mod 10))
    (String (digit_char (n / 100 mod 10)) (pad2 n)).

(** The strict text [YYYY-MM-DD] of a date (what [isoformat()] prints). *)
Definition isoformat (t : datetime) : str :=
  lit (pad4 (year t) ++ "-" ++ pad2 (month t) ++ "-" ++ pad2 (day t)).

(** The calendar dates of [datetime]. *)
Definition valid_date (t : datetime) : Prop :=
  (MINYEAR <= year t <= MAXYEAR
   /\ 1 <= month t <= 12
   /\ 1 <= day t <= _days_in_month (year t) (month t))%Z.

(** The ways a month may be written: two digits, or one digit when it has
    no tens. *)
Definition month_texts (m : Z) : list string :=
  pad2 m :: (if (m <? 10)%Z then [String (digit_char m) ""] else []).

(** The ways a day may be written with the digits 0 to 9: two digits, or,
    below ten, one digit with or without a blank before it. *)
Definition day_texts (d : Z) : list string :=
  pad2 d :: (if (d <? 10)%Z
             then [String (digit_char d) ""; String " " (String (digit_char d) "")]
             else []).

Local Close Scope string_scope.

(** The number written by a string of decimal digits of any script. *)
Fixpoint digits_value (acc : Z) (s : str) : option Z :=
  match s with
  | [] => Some acc
  | c :: s' =>
      match decimal_value c with
      | Some v => digits_value (10 * acc + v) s'
      | None => None
      end
  end.

(** [g] writes the year [y]: four decimal digits of any script. *)
Definition year_text (g : str) (y : Z) : Prop :=
  List.length g = 4%nat /\ digits_value 0 g = Some y.

(** [g] writes the day [d]: one of the forms with the digits 0 to 9, or a
    1 or a 2 followed by a decimal digit of any script. *)
Definition day_text (g : str) (d : Z) : Prop :=
  (exists a : string, In a (day_texts d) /\ g = lit a)
  \/ (exists (c : N) (v : Z),
        decimal_value c = Some v
        /\ ((g = lit "1" ++ [c] /\ d = 10 + v)
            \/ (g = lit "2" ++ [c] /\ d = 20 + v))).

(** [s] is a text of the calendar date [t] in the form the format accepts:
    a four-digit year, a month and a day, separated by dashes. *)
Definition date_text (s : str) (t : datetime) : Prop :=
  valid_date t
  /\ exists (gY : str) (gm : string) (gd : str),
       year_text gY (year t) /\ In gm (month_texts (month t))
       /\ day_text gd (day t)
       /\ s = gY ++ lit "-" ++ lit gm ++ lit "-" ++ gd.

(** A check made on every decimal digit of the table. *)
Definition all_decimals (P : N -> Z -> bool) : bool :=
  forallb (fun b =>
             forallb (fun i => P (b + N.of_nat i)%N (Z.of_nat i)) (seq 0 10))
          DECIMAL_DIGIT_BLOCKS.

(** The integers [first], ..., [first + len - 1]. *)
Definition range (first : nat) (len : nat) : list Z :=
  map Z.of_nat (seq first len).

(** The generator whose successive raw outcomes are [draws] (then zeros). *)
Definition tape_of (draws : list Z) : nat -> Z := fun n => nth n draws 0.

(** A fresh interpreter: no portfolio yet, nothing printed. *)
Definition fresh_world (draws : list Z) : World :=
  mkWorld [] (tape_of draws) 0 [].

(** A world whose portfolio holds [tickers]. *)
Definition world_with (tickers : list string) (draws : list Z) : World :=
  mkWorld (map mkStock tickers) (tape_of draws) 0 [].

(** The text of the exception raised for [s]. *)
Definition invalid_date_message (s : str) : str :=
  s ++ lit " is not a valid date. Invalid date format. Please use the format yyyy-mm-dd.".

(** The world after the first and after the second valuation. *)
Definition after_valuations (k : nat) (w : World) : World :=
  set_cursor (k * (2 * List.length (stocks w)) + cursor w) w.

(** The world [w] after [lines] were printed. *)
Definition emit (lines : list str) (w : World) : World :=
  mkWorld (stocks w) (tape w) (cursor w) (stdout w ++ lines).

(** [|days| / 365], the number of years between two dates. *)
Definition years_between (t1 t2 : datetime) : Q :=
  (inject_Z (Z.abs (toordinal t2 - toordinal t1)) / 365)%Q.

(** The number written by the digits 0 to 9 of [s], after [acc]. *)
Fixpoint numeral_digits (acc : Z) (s : string) : option Z :=
  match s with
  | EmptyString => Some acc
  | String c s' =>
      if (48 <=? nat_of_ascii c)%nat && (nat_of_ascii c <=? 57)%nat
      then numeral_digits (10 * acc + (Z.of_nat (nat_of_ascii c) - 48)) s'
      else None
  end.

(** The number written by a non-empty string of digits. *)
Definition numeral_value (s : string) : option Z :=
  match s with
  | EmptyString => None
  | _ => numeral_digits 0 s
  end.

(** [text] writes the number [v] with two decimals: an optional minus
    sign, the digits of the integer part without superfluous zeros, a point
    and two digits. *)
Definition two_decimals (text : string) (v : Q) : Prop :=
  exists (negative : bool) (whole : string) (k d1 d2 : Z),
    text = ((if negative then "-" else "") ++ whole ++ "."
            ++ String (digit_char d1) (String (digit_char d2) ""))%string
    /\ numeral_value whole = Some k
    /\ (whole = "0"%string
        \/ exists c r, whole = String c r /\ c <> "0"%char)
    /\ 0 <= d1 <= 9 /\ 0 <= d2 <= 9
    /\ (v == (if negative then -1 else 1)
             * (inject_Z k + inject_Z (10 * d1 + d2) / 100))%Q.

(** The percentage [(final - initial) / initial * 100]. *)
Definition percentage (initial final : Q) : Q :=
  ((final - initial) / initial * 100)%Q.

(** The unit roundoff of binary64, [2 ^ -53]. *)
Definition UNIT_ROUNDOFF : Q := 1 # 9007199254740992.

(** [r] is [x] rounded to a float, in the standard model of floating-point
    arithmetic: the relative error is at most the unit roundoff. *)
Definition rounded (x r : Q) : Prop :=
  exists delta : Q,
    (Qabs delta <= UNIT_ROUNDOFF)%Q /\ (r == x * (1 + delta))%Q.

(** A portfolio as the constructor builds it: from 1 to 8 stocks. *)
Definition built (w : World) : Prop :=
  (1 <= List.length (stocks w) <= 8)%nat.

(** * Verification *)

(** ** Random draws and prices *)

Lemma randint_spec (a b : Z) (w : World) :
  a <= b ->
  randint a b w
  = (inr (a + tape w (cursor w) mod (b + 1 - a)), set_cursor (S (cursor w)) w).
Proof.
  intros Hab. unfold randint, bind, _randbelow, ret.
  destruct (0 <? b + 1 - a) eqn:Hw; [|apply Z.ltb_ge in Hw; lia].
  destruct (b + 1 - a <=? 0) eqn:Hz; [apply Z.leb_le in Hz; lia|].
  reflexivity.
Qed.

Lemma randint_range (a b : Z) (w : World) :
  a <= b ->
  a <= a + tape w (cursor w) mod (b + 1 - a) <= b.
Proof.
  intros Hab.
  pose proof (Z.mod_pos_bound (tape w (cursor w)) (b + 1 - a)). lia.
Qed.

Lemma get_price_spec (self : Stock) (w : World) :
  get_price self w
  = (inr (price_of (drawn_units w) (drawn_cents w)),
     set_cursor (S (S (cursor w))) w).
Proof.
  unfold get_price, _generate_random_price, bind.
  rewrite (randint_spec 1 1000) by lia.
  rewrite (randint_spec 1 100) by lia.
  reflexivity.
Qed.

Lemma drawn_units_range (w : World) : 1 <= drawn_units w <= 1000.
Proof. apply (randint_range 1 1000 w). lia. Qed.

Lemma drawn_cents_range (w : World) : 1 <= drawn_cents w <= 100.
Proof.
  apply (randint_range 1 100 (set_cursor (S (cursor w)) w)). lia.
Qed.

Lemma price_of_bounds (units cents : Z) :
  1 <= units <= 1000 -> 1 <= cents <= 100 ->
  (101 # 100 <= price_of units cents /\ price_of units cents <= 1001)%Q.
Proof.
  intros Hu Hc. unfold price_of, Qle, Qdiv, Qmult, Qplus, Qinv, inject_Z.
  simpl. lia.
Qed.

(** ** Sampling without replacement *)

Lemma set_cursor_twice (n m : nat) (w : World) :
  set_cursor n (set_cursor m w) = set_cursor n w.
Proof. reflexivity. Qed.

Lemma firstn_snoc {A} (p : list A) (l : nat) (y : A) :
  nth_error p l = Some y -> firstn (S l) p = (firstn l p ++ [y])%list.
Proof.
  revert l. induction p as [|a p IH]; intros [|l] H; simpl in *; try discriminate.
  - injection H as ->. reflexivity.
  - f_equal. apply IH. exact H.
Qed.

Lemma list_set_length {A} (j : nat) (y : A) (pool : list A) :
  List.length (list_set j y pool) = List.length pool.
Proof.
  revert j. induction pool as [|a p IH]; intros [|j]; simpl; auto.
Qed.

(** One round of the loop: the live prefix of the pool loses exactly the
    element that was picked. *)
Lemma list_set_perm {A} (pool : list A) (last j : nat) (x y : A) :
  nth_error pool j = Some x ->
  nth_error pool last = Some y ->
  (j <= last)%nat ->
  Permutation (firstn (S last) pool) (x :: firstn last (list_set j y pool)).
Proof.
  revert last j. induction pool as [|a p IH]; intros last j Hx Hy Hj.
  - destruct j; discriminate.
  - destruct j as [|j], last as [|last]; simpl in Hx, Hy.
    + injection Hx as ->. reflexivity.
    + injection Hx as ->. simpl. apply perm_skip.
      change (Permutation (firstn (S last) p) (y :: firstn last p)).
      rewrite (firstn_snoc p last y Hy).
      symmetry. apply Permutation_cons_append.
    + lia.
    + change (Permutation (a :: firstn (S last) p)
                          (x :: a :: firstn last (list_set j y p))).
      rewrite (IH last j Hx Hy) by lia. apply perm_swap.
Qed.

Lemma sample_pool_spec {A} (todo : nat) :
  forall (pool : list A) (live : nat) (w : World),
    (todo <= live <= List.length pool)%nat ->
    exists res rest,
      sample_pool pool live todo w = (inr res, set_cursor (todo + cursor w) w)
      /\ List.length res = todo
      /\ Permutation (firstn live pool) (res ++ rest).
Proof.
  induction todo as [|todo IH]; intros pool live w Hb.
  - exists [], (firstn live pool). repeat split; try reflexivity.
    destruct w; reflexivity.
  - destruct live as [|last]; [lia|].
    cbn [sample_pool]. unfold bind at 1. unfold _randbelow.
    destruct (Z.of_nat (S last) <=? 0) eqn:Hz; [apply Z.leb_le in Hz; lia|].
    set (j := tape w (cursor w) mod Z.of_nat (S last)).
    assert (Hj : 0 <= j < Z.of_nat (S last)) by (apply Z.mod_pos_bound; lia).
    replace (S last - 1)%nat with last by lia.
    destruct (nth_error pool (Z.to_nat j)) as [x|] eqn:Hx;
      [|apply nth_error_None in Hx; lia].
    destruct (nth_error pool last) as [y|] eqn:Hy;
      [|apply nth_error_None in Hy; lia].
    destruct (IH (list_set (Z.to_nat j) y pool) last
                 (set_cursor (S (cursor w)) w)) as (res & rest & Hrun & Hlen & Hperm).
    { rewrite list_set_length. lia. }
    exists (x :: res), rest. unfold bind. rewrite Hrun. repeat split.
    + unfold ret. f_equal. cbn [cursor set_cursor].
      rewrite set_cursor_twice. f_equal. lia.
    + simpl. f_equal. exact Hlen.
    + rewrite (list_set_perm pool last (Z.to_nat j) x y Hx Hy) by lia.
      simpl. apply perm_skip. exact Hperm.
Qed.

(** ** Portfolio construction *)

Lemma CUSTOM_RANDOM_STOCKS_NoDup : NoDup CUSTOM_RANDOM_STOCKS.
Proof.
  unfold CUSTOM_RANDOM_STOCKS.
  repeat (constructor; [simpl; intuition discriminate|]). constructor.
Qed.

Lemma _generate_random_stocks_spec (w : World) :
  exists names : list string,
    _generate_random_stocks w
    = (inr (map mkStock names),
       set_cursor (S (List.length names) + cursor w) w)
    /\ (1 <= List.length names <= 8)%nat
    /\ NoDup names
    /\ incl names CUSTOM_RANDOM_STOCKS.
Proof.
  unfold _generate_random_stocks, bind.
  change (Z.of_nat (List.length CUSTOM_RANDOM_STOCKS)) with 8.
  rewrite (randint_spec 1 8) by lia.
  pose proof (randint_range 1 8 w ltac:(lia)) as Hk.
  set (k := 1 + tape w (cursor w) mod (8 + 1 - 1)) in *.
  unfold sample.
  change (List.length CUSTOM_RANDOM_STOCKS) with 8%nat.
  replace ((0 <=? k) && (k <=? Z.of_nat 8)) with true
    by (symmetry; apply andb_true_intro; split; apply Z.leb_le; lia).
  destruct (sample_pool_spec (Z.to_nat k) CUSTOM_RANDOM_STOCKS 8
              (set_cursor (S (cursor w)) w))
    as (res & rest & Hrun & Hlen & Hperm).
  { change (List.length CUSTOM_RANDOM_STOCKS) with 8%nat. lia. }
  change (firstn 8 CUSTOM_RANDOM_STOCKS) with CUSTOM_RANDOM_STOCKS in Hperm.
  exists res. rewrite Hrun. repeat split.
  - unfold ret. f_equal. cbn [cursor set_cursor]. rewrite set_cursor_twice.
    f_equal. lia.
  - lia.
  - lia.
  - apply (NoDup_app_remove_r res rest).
    apply (Permutation_NoDup Hperm). exact CUSTOM_RANDOM_STOCKS_NoDup.
  - intros x Hx. apply (Permutation_in x (Permutation_sym Hperm)).
    apply in_or_app. left. exact Hx.
Qed.

(** ** Frame: what a computation leaves untouched *)

Lemma keeps_stocks_bind {A B} (c : Py A) (k : A -> Py B) :
  keeps_stocks c -> (forall a, keeps_stocks (k a)) -> keeps_stocks (bind c k).
Proof.
  intros Hc Hk w. unfold bind. specialize (Hc w).
  destruct (c w) as [[e|a] w']; simpl in *.
  - exact Hc.
  - rewrite Hk. exact Hc.
Qed.

Lemma keeps_stocks_ret {A} (a : A) : keeps_stocks (ret a).
Proof. intro w. reflexivity. Qed.

Lemma keeps_stocks_raise {A} (e : exn) : keeps_stocks (@raise A e).
Proof. intro w. reflexivity. Qed.

Lemma keeps_stocks_lift {A} (r : exn + A) : keeps_stocks (lift r).
Proof. intro w. reflexivity. Qed.

Lemma keeps_stocks_print (line : str) : keeps_stocks (print line).
Proof. intro w. reflexivity. Qed.

Lemma keeps_stocks_randbelow (n : Z) : keeps_stocks (_randbelow n).
Proof. intro w. reflexivity. Qed.

Create HintDb frame.
#[local] Hint Resolve keeps_stocks_ret keeps_stocks_raise keeps_stocks_lift
  keeps_stocks_print keeps_stocks_randbelow : frame.

Ltac frame :=
  repeat (apply keeps_stocks_bind; [|intro]); auto with frame.

Lemma keeps_stocks_randint (a b : Z) : keeps_stocks (randint a b).
Proof. unfold randint. destruct (0 <? b + 1 - a); frame. Qed.

Lemma keeps_stocks_get_price (self : Stock) : keeps_stocks (get_price self).
Proof. unfold get_price, _generate_random_price. frame. Qed.

Lemma keeps_stocks_sum_prices (l : list Stock) :
  forall acc, keeps_stocks (sum_prices acc l).
Proof.
  induction l as [|s l IH]; intro acc; simpl.
  - apply keeps_stocks_ret.
  - apply keeps_stocks_bind; [apply keeps_stocks_get_price|]. intro p. apply IH.
Qed.

Lemma keeps_stocks_get_portfolio_value : keeps_stocks _get_portfolio_value.
Proof. intro w. unfold _get_portfolio_value. apply keeps_stocks_sum_prices. Qed.

Lemma keeps_stocks_between (s e : str) :
  keeps_stocks (calculate_profit_between s e).
Proof.
  unfold calculate_profit_between.
  pose proof keeps_stocks_get_portfolio_value. frame.
Qed.

Lemma keeps_stocks_annualized pow_frac (s e : str) :
  keeps_stocks (calculate_profit_annualized pow_frac s e).
Proof.
  unfold calculate_profit_annualized.
  pose proof keeps_stocks_get_portfolio_value. frame.
Qed.

Lemma Portfolio__init__spec (w : World) :
  exists names : list string,
    Portfolio__init__ w
    = (inr tt, set_stocks (map mkStock names)
                 (set_cursor (S (List.length names) + cursor w) w))
    /\ (1 <= List.length names <= 8)%nat
    /\ NoDup names
    /\ incl names CUSTOM_RANDOM_STOCKS.
Proof.
  destruct (_generate_random_stocks_spec w) as (names & Hrun & Hlen & Hnd & Hin).
  exists names. unfold Portfolio__init__, bind. rewrite Hrun. auto.
Qed.

Lemma map_name_mkStock (names : list string) :
  map name (map mkStock names) = names.
Proof. induction names; simpl; congruence. Qed.

(** C8. Every portfolio built by [Portfolio()] holds between 1 and 8 stocks,
    each ticker belongs to [CUSTOM_RANDOM_STOCKS], the tickers are pairwise
    distinct, and no operation of the class changes [self.stocks]
    afterwards. *)
Theorem C8_portfolio_stocks_invariant
    (pow_frac : Q -> Q -> exn + Q) (w : World) :
  let w' := snd (Portfolio__init__ w) in
  fst (Portfolio__init__ w) = inr tt
  /\ (1 <= List.length (stocks w') <= 8)%nat
  /\ (forall s, In s (stocks w') -> In (name s) CUSTOM_RANDOM_STOCKS)
  /\ NoDup (map name (stocks w'))
  /\ (forall w2, stocks (snd (_get_portfolio_value w2)) = stocks w2)
  /\ (forall s e w2,
         stocks (snd (calculate_profit_between s e w2)) = stocks w2)
  /\ (forall s e w2,
         stocks (snd (calculate_profit_annualized pow_frac s e w2)) = stocks w2).
Proof.
  destruct (Portfolio__init__spec w) as (names & Hrun & Hlen & Hnd & Hin).
  rewrite Hrun. cbn [fst snd stocks set_stocks].
  split; [reflexivity|]. split; [rewrite length_map; exact Hlen|].
  split.
  { intros s Hs. apply in_map_iff in Hs. destruct Hs as (n & <- & Hn).
    apply Hin. exact Hn. }
  split; [rewrite map_name_mkStock; exact Hnd|].
  split; [exact keeps_stocks_get_portfolio_value|].
  split; intros s e w2.
  - apply keeps_stocks_between.
  - apply keeps_stocks_annualized.
Qed.

(** ** Dates: the texts [strptime] accepts *)

Lemma in_range (first len : nat) (z : Z) :
  Z.of_nat first <= z < Z.of_nat (first + len) -> In z (range first len).
Proof.
  intros Hz. unfold range. apply in_map_iff. exists (Z.to_nat z).
  split; [lia|]. apply in_seq. lia.
Qed.

(** Case analysis on an integer known to lie in [first, first + len). *)
Ltac range_cases n first len :=
  let H := fresh in
  assert (H : In n (range first len)) by (apply in_range; lia);
  cbv in H;
  repeat (destruct H as [H|H]; [subst n|]); [..|destruct H].

Ltac digit_cases n := range_cases n 0%nat 10%nat.
Ltac month_cases m := range_cases m 1%nat 12%nat.

(** *** Decimal digits *)

Lemma decimal_value_inv (c : N) (v : Z) :
  decimal_value c = Some v ->
  exists (b : N) (i : nat),
    In b DECIMAL_DIGIT_BLOCKS /\ (i < 10)%nat
    /\ c = (b + N.of_nat i)%N /\ v = Z.of_nat i.
Proof.
  unfold decimal_value.
  destruct (find _ DECIMAL_DIGIT_BLOCKS) as [b|] eqn:Hf; [|discriminate].
  intros H. injection H as <-. apply find_some in Hf. destruct Hf as [Hin Hb].
  apply andb_prop in Hb. destruct Hb as [Hlo Hhi].
  apply N.leb_le in Hlo. apply N.ltb_lt in Hhi.
  exists b, (N.to_nat (c - b)). repeat split; [exact Hin|lia|lia|lia].
Qed.

Lemma all_decimals_spec (P : N -> Z -> bool) :
  all_decimals P = true ->
  forall c v, decimal_value c = Some v -> P c v = true.
Proof.
  intros H c v Hc.
  destruct (decimal_value_inv c v Hc) as (b & i & Hb & Hi & -> & ->).
  unfold all_decimals in H. rewrite forallb_forall in H.
  specialize (H b Hb). rewrite forallb_forall in H. apply H.
  apply in_seq. lia.
Qed.

Lemma decimal_value_range (c : N) (v : Z) :
  decimal_value c = Some v -> 0 <= v <= 9.
Proof.
  intros H. destruct (decimal_value_inv c v H) as (b & i & _ & Hi & _ & ->). lia.
Qed.

(** No decimal digit is a blank, a sign or an underscore. *)
Lemma decimal_plain (c : N) (v : Z) :
  decimal_value c = Some v ->
  is_space c = false /\ is_char "+" c = false /\ is_char "-" c = false.
Proof.
  intros H.
  pose proof (all_decimals_spec
    (fun c _ => negb (is_space c) && negb (is_char "+" c)
                && negb (is_char "-" c))
    ltac:(vm_compute; reflexivity) c v H) as HP.
  cbv beta in HP.
  destruct (is_space c), (is_char "+" c), (is_char "-" c);
    try discriminate HP; auto.
Qed.

Lemma is_decimal_iff (c : N) :
  is_decimal c = true <-> exists v, decimal_value c = Some v.
Proof.
  unfold is_decimal. destruct (decimal_value c) as [v|].
  - split; [eauto|reflexivity].
  - split; [discriminate|intros [v H]; discriminate].
Qed.

(** *** What [int] reads from a string of digits *)

Lemma digits_value_plain (s : str) :
  forall acc y, digits_value acc s = Some y ->
  Forall (fun c => is_space c = false) s.
Proof.
  induction s as [|c s IH]; intros acc y H; [constructor|].
  cbn [digits_value] in H. destruct (decimal_value c) as [v|] eqn:Hc; [|discriminate].
  constructor; [apply (decimal_plain c v Hc)|apply (IH _ _ H)].
Qed.

Lemma lstrip_plain (s : str) :
  Forall (fun c => is_space c = false) s -> lstrip s = s.
Proof. intros [|c l Hc _]; [reflexivity|]. cbn [lstrip]. rewrite Hc. reflexivity. Qed.

Lemma strip_plain (s : str) :
  Forall (fun c => is_space c = false) s -> rstrip (lstrip s) = s.
Proof.
  intros H. rewrite (lstrip_plain s H). unfold rstrip.
  rewrite lstrip_plain by (apply Forall_rev; exact H). apply rev_involutive.
Qed.

Lemma int_digits_value (s : str) :
  forall acc y, digits_value acc s = Some y -> int_digits acc s = inr y.
Proof.
  induction s as [|c s IH]; intros acc y H; cbn [digits_value int_digits] in *.
  - congruence.
  - destruct (decimal_value c) as [v|]; [apply IH; exact H|discriminate].
Qed.

(** [int] reads a non-empty string of decimal digits as the number it
    writes. *)
Lemma py_int_digits (s : str) (y : Z) :
  s <> [] -> digits_value 0 s = Some y -> py_int s = inr y.
Proof.
  intros Hs H. unfold py_int.
  rewrite (strip_plain s (digits_value_plain s 0 y H)).
  destruct s as [|c t]; [congruence|].
  cbn [digits_value] in H.
  destruct (decimal_value c) as [v|] eqn:Hc; [|discriminate].
  destruct (decimal_plain c v Hc) as (_ & -> & ->).
  unfold int_unsigned. rewrite Hc. apply int_digits_value.
  replace v with (10 * 0 + v) by lia. exact H.
Qed.

(** *** The matcher on the texts of a date *)

Lemma rmatch_digit (c : N) (s : str) :
  is_decimal c = true -> rmatch digit (c :: s) = [([c], s)].
Proof. intros Hc. unfold digit. cbn [rmatch]. rewrite Hc. reflexivity. Qed.

Lemma rmatch_Seq_single (r1 r2 : regex) (s m1 s1 m2 s2 : str) :
  rmatch r1 s = [(m1, s1)] -> rmatch r2 s1 = [(m2, s2)] ->
  rmatch (Seq r1 r2) s = [(m1 ++ m2, s2)].
Proof. intros H1 H2. cbn [rmatch]. rewrite H1. simpl. rewrite H2. reflexivity. Qed.

Lemma year_text_inv (g : str) (y : Z) :
  year_text g y ->
  exists c1 c2 c3 c4,
    g = [c1; c2; c3; c4]
    /\ is_decimal c1 = true /\ is_decimal c2 = true
    /\ is_decimal c3 = true /\ is_decimal c4 = true.
Proof.
  intros [Hlen Hval].
  destruct g as [|c1 [|c2 [|c3 [|c4 [|c5 g]]]]]; try discriminate Hlen.
  cbn [digits_value] in Hval.
  exists c1, c2, c3, c4. split; [reflexivity|].
  unfold is_decimal.
  destruct (decimal_value c1); [|discriminate].
  destruct (decimal_value c2); [|discriminate].
  destruct (decimal_value c3); [|discriminate].
  destruct (decimal_value c4); [|discriminate]. auto.
Qed.

Lemma rmatch_re_Y (g rest : str) (y : Z) :
  year_text g y -> rmatch re_Y (g ++ rest) = [(g, rest)].
Proof.
  intros H. destruct (year_text_inv g y H) as (c1 & c2 & c3 & c4 & -> & H1 & H2 & H3 & H4).
  unfold re_Y. cbn [app].
  repeat (eapply (rmatch_Seq_single _ _ _ [_]);
          [apply rmatch_digit; assumption|]).
  apply rmatch_digit; assumption.
Qed.

Lemma py_int_year (g : str) (y : Z) : year_text g y -> py_int g = inr y.
Proof.
  intros [Hlen Hval]. apply py_int_digits; [|exact Hval].
  destruct g; [discriminate Hlen|discriminate].
Qed.

(** After a month text and a dash, the match goes on with the day; no other
    way of reading the month survives the dash. *)
Lemma match_month_day_month (m : Z) (gm : string) (r : str) :
  1 <= m <= 12 -> In gm (month_texts m) ->
  match_month_day (lit "-" ++ lit gm ++ lit "-" ++ r)
  = map (fun md => (lit gm, fst md, snd md)) (rmatch re_d r)
  /\ py_int (lit gm) = inr m.
Proof.
  intros Hm Hgm. unfold match_month_day. generalize re_d. intro D.
  month_cases m; vm_compute in Hgm;
    repeat (destruct Hgm as [Hgm|Hgm]; [subst gm|]); try destruct Hgm;
    (split; [simpl; rewrite ?app_nil_r; reflexivity|reflexivity]).
Qed.

Lemma rmatch_re_d_day (gd : str) (d : Z) :
  1 <= d <= 31 -> day_text gd d ->
  hd_error (rmatch re_d gd) = Some (gd, []) /\ py_int gd = inr d.
Proof.
  intros Hd [(a & Ha & ->)|(c & v & Hc & Hg)].
  - range_cases d 1%nat 31%nat; vm_compute in Ha;
      repeat (destruct Ha as [Ha|Ha]; [subst a|]); try destruct Ha;
      (split; reflexivity).
  - assert (Hdec : is_decimal c = true) by (apply is_decimal_iff; eauto).
    split.
    + unfold re_d, digit. revert Hdec. generalize is_decimal. intros P HP.
      destruct Hg as [[-> _]|[-> _]]; simpl; rewrite HP; reflexivity.
    + destruct Hg as [[-> ->]|[-> ->]]; apply py_int_digits;
        try discriminate; simpl; rewrite Hc; reflexivity.
Qed.

Lemma hd_error_map {A B} (f : A -> B) (l : list A) :
  hd_error (map f l) = option_map f (hd_error l).
Proof. destruct l; reflexivity. Qed.

Lemma days_in_month_le_31 (y m : Z) :
  1 <= m <= 12 -> _days_in_month y m <= 31.
Proof.
  intros Hm. unfold _days_in_month.
  destruct ((m =? 2) && _is_leap y); [lia|].
  month_cases m; simpl; lia.
Qed.

(** Every text of a calendar date is parsed to that date. *)
Lemma strptime_complete (s : str) (t : datetime) :
  date_text s t -> strptime s = inr t.
Proof.
  intros [(Hy & Hm & Hd) (gY & gm & gd & HgY & Hgm & Hgd & ->)].
  destruct t as [y m d]. cbn [year month day] in *.
  unfold MINYEAR, MAXYEAR in Hy.
  pose proof (days_in_month_le_31 y m Hm) as H31.
  destruct (match_month_day_month m gm gd Hm Hgm) as [Htail Hpm].
  destruct (rmatch_re_d_day gd d ltac:(lia) Hgd) as [Hday Hpd].
  unfold strptime, format_regex_match.
  rewrite (rmatch_re_Y gY _ y HgY).
  cbn [flat_map fst snd]. rewrite app_nil_r, Htail, !hd_error_map, Hday.
  cbn [option_map fst snd]. rewrite (py_int_year gY y HgY), Hpm, Hpd.
  unfold new_datetime, MINYEAR, MAXYEAR.
  replace ((1 <=? y) && (y <=? 9999)) with true
    by (symmetry; apply andb_true_intro; split; apply Z.leb_le; lia).
  replace ((1 <=? m) && (m <=? 12)) with true
    by (symmetry; apply andb_true_intro; split; apply Z.leb_le; lia).
  replace ((1 <=? d) && (d <=? _days_in_month y m)) with true
    by (symmetry; apply andb_true_intro; split; apply Z.leb_le; lia).
  reflexivity.
Qed.

(** Inversion of the matcher. *)

Lemma rmatch_Chr_inv (p : N -> bool) (s m r : str) :
  In (m, r) (rmatch (Chr p) s) ->
  exists c, p c = true /\ m = [c] /\ s = c :: r.
Proof.
  cbn [rmatch]. destruct s as [|c s]; [intros []|].
  destruct (p c) eqn:Hp; [|intros []].
  intros [H|[]]. injection H as <- <-. exists c. auto.
Qed.

Lemma rmatch_Seq_inv (r1 r2 : regex) (s m r : str) :
  In (m, r) (rmatch (Seq r1 r2) s) ->
  exists m1 s1 m2,
    In (m1, s1) (rmatch r1 s) /\ In (m2, r) (rmatch r2 s1)
    /\ m = m1 ++ m2.
Proof.
  cbn [rmatch]. intros H. apply in_flat_map in H.
  destruct H as ([m1 s1] & H1 & H). apply in_map_iff in H.
  destruct H as ([m2 s2] & Heq & H2). cbn [fst snd] in *.
  injection Heq as <- <-. exists m1, s1, m2. auto.
Qed.

Lemma rmatch_Alt_inv (r1 r2 : regex) (s : str) (x : str * str) :
  In x (rmatch (Alt r1 r2) s) -> In x (rmatch r1 s) \/ In x (rmatch r2 s).
Proof. cbn [rmatch]. apply in_app_or. Qed.

Lemma between_cases (lo hi : ascii) (c : N) :
  between lo hi c = true ->
  In c (map N.of_nat
            (seq (nat_of_ascii lo) (S (nat_of_ascii hi) - nat_of_ascii lo))).
Proof.
  unfold between. intros H. apply andb_prop in H. destruct H as [Hlo Hhi].
  apply N.leb_le in Hlo. apply N.leb_le in Hhi.
  unfold nat_of_ascii.
  apply in_map_iff. exists (N.to_nat c). split; [lia|]. apply in_seq. lia.
Qed.

(** Take a membership in [rmatch] apart, down to the characters read. *)
Ltac invert_rmatch :=
  repeat match goal with
    | H : In _ (rmatch (Alt _ _) _) |- _ =>
        apply rmatch_Alt_inv in H; destruct H as [H|H]
    | H : In _ (rmatch (Seq _ _) _) |- _ =>
        apply rmatch_Seq_inv in H;
        let m1 := fresh "m" in let s1 := fresh "s" in let m2 := fresh "m" in
        let Ha := fresh "Hm" in let Hb := fresh "Hm" in
        destruct H as (m1 & s1 & m2 & Ha & Hb & ->)
    | H : In _ (rmatch (Chr _) _) |- _ =>
        apply rmatch_Chr_inv in H;
        let c := fresh "c" in let Hc := fresh "Hc" in
        destruct H as (c & Hc & -> & ->)
    end.

(** Enumerate the characters of a bracketed class. *)
Ltac enumerate_chars :=
  repeat match goal with
    | H : is_char _ _ = true |- _ => unfold is_char in H
    | H : between _ _ ?c = true |- _ =>
        apply between_cases in H; vm_compute in H;
        repeat (destruct H as [H|H]; [subst c|]); [..|destruct H]
    end.

Lemma re_Y_inv (s gY r : str) :
  In (gY, r) (rmatch re_Y s) ->
  s = gY ++ r /\ exists y, year_text gY y.
Proof.
  unfold re_Y, digit. intros H. invert_rmatch. split; [reflexivity|].
  repeat match goal with
    | H : is_decimal _ = true |- _ =>
        apply is_decimal_iff in H; destruct H as [? H]
    end.
  eexists. split; [reflexivity|]. simpl.
  repeat match goal with H : decimal_value _ = Some _ |- _ => rewrite H; clear H end.
  reflexivity.
Qed.

Lemma re_dash_inv (s m r : str) :
  In (m, r) (rmatch re_dash s) -> s = lit "-" ++ r.
Proof.
  unfold re_dash. intros H. invert_rmatch. enumerate_chars. reflexivity.
Qed.

(** Name the number and the text read by [%m] or [%d]. *)
Ltac read_number :=
  match goal with
  | |- exists k, _ /\ _ /\ py_int ?g = inr k =>
      let v := eval vm_compute in (py_int g) in
      match v with inr ?k => exists k end
  end;
  split; [lia|split; [|reflexivity]].

Ltac name_text :=
  first [ eexists; split; [left; reflexivity|reflexivity]
        | eexists; split; [right; left; reflexivity|reflexivity]
        | eexists; split; [right; right; left; reflexivity|reflexivity] ].

Lemma re_m_inv (s gm r : str) :
  In (gm, r) (rmatch re_m s) ->
  s = gm ++ r
  /\ exists m, 1 <= m <= 12
       /\ (exists a, In a (month_texts m) /\ gm = lit a)
       /\ py_int gm = inr m.
Proof.
  unfold re_m. intros H. invert_rmatch; (split; [reflexivity|]);
    enumerate_chars; read_number; name_text.
Qed.

Lemma re_d_inv (s gd r : str) :
  In (gd, r) (rmatch re_d s) ->
  s = gd ++ r
  /\ exists d, 1 <= d <= 31 /\ day_text gd d /\ py_int gd = inr d.
Proof.
  unfold re_d, digit. intros H. invert_rmatch; (split; [reflexivity|]).
  - enumerate_chars; read_number; left; name_text.
  - match goal with
    | H : is_decimal ?c = true |- _ =>
        apply is_decimal_iff in H; destruct H as [v Hv];
        pose proof (decimal_value_range _ _ Hv) as Hr;
        enumerate_chars; [exists (10 + v)|exists (20 + v)];
          (split; [lia|]);
          (split; [right; exists c, v; split; [exact Hv|auto]|]);
          apply py_int_digits; try discriminate; simpl; rewrite Hv; reflexivity
    end.
  - enumerate_chars; read_number; left; name_text.
  - enumerate_chars; read_number; left; name_text.
  - enumerate_chars; read_number; left; name_text.
Qed.

Lemma match_month_day_inv (s gm gd rest : str) :
  In (gm, gd, rest) (match_month_day s) ->
  s = lit "-" ++ gm ++ lit "-" ++ gd ++ rest
  /\ (exists m, 1 <= m <= 12
        /\ (exists a, In a (month_texts m) /\ gm = lit a)
        /\ py_int gm = inr m)
  /\ (exists d, 1 <= d <= 31 /\ day_text gd d /\ py_int gd = inr d).
Proof.
  unfold match_month_day. intros H.
  apply in_flat_map in H. destruct H as ([d1 s1] & Hd1 & H).
  apply in_flat_map in H. destruct H as ([gm' s2] & Hgm & H).
  apply in_flat_map in H. destruct H as ([d2 s3] & Hd2 & H).
  apply in_map_iff in H. destruct H as ([gd' s4] & Heq & Hgd).
  cbn [fst snd] in *. injection Heq as <- <- <-.
  apply re_dash_inv in Hd1. subst s.
  apply re_m_inv in Hgm. destruct Hgm as [-> Hm].
  apply re_dash_inv in Hd2. subst s2.
  apply re_d_inv in Hgd. destruct Hgd as [-> Hd].
  split; [reflexivity|auto].
Qed.

Lemma new_datetime_inv (y m d : Z) (t : datetime) :
  new_datetime y m d = inr t -> t = mkDatetime y m d /\ valid_date t.
Proof.
  unfold new_datetime, valid_date.
  destruct ((MINYEAR <=? y) && (y <=? MAXYEAR)) eqn:Hy; [|discriminate].
  destruct ((1 <=? m) && (m <=? 12)) eqn:Hm; [|discriminate].
  destruct ((1 <=? d) && (d <=? _days_in_month y m)) eqn:Hd; [|discriminate].
  cbn [negb]. intros H. injection H as <-. cbn [year month day].
  apply andb_prop in Hy, Hm, Hd. rewrite !Z.leb_le in Hy, Hm, Hd. auto.
Qed.

(** Whatever [strptime] accepts is a text of the date it returns. *)
Lemma strptime_sound (s : str) (t : datetime) :
  strptime s = inr t -> date_text s t.
Proof.
  unfold strptime, format_regex_match.
  destruct (hd_error _) as [[gY [[gm gd] rest]]|] eqn:Hhd; [|discriminate].
  destruct rest as [|? ?]; [|discriminate].
  destruct (py_int gY) as [|y] eqn:HpY; [discriminate|].
  destruct (py_int gm) as [|m] eqn:Hpm; [discriminate|].
  destruct (py_int gd) as [|d] eqn:Hpd; [discriminate|].
  intros Hnew. apply new_datetime_inv in Hnew. destruct Hnew as [-> Hvalid].
  split; [exact Hvalid|]. cbn [year month day].
  assert (Hin : In (gY, (gm, gd, []))
                   (flat_map (fun mY => map (fun t => (fst mY, t))
                                            (match_month_day (snd mY)))
                             (rmatch re_Y s))).
  { destruct (flat_map _ _) as [|x l]; [discriminate|].
    injection Hhd as ->. left. reflexivity. }
  apply in_flat_map in Hin. destruct Hin as ([gY' s1] & HY & Hin).
  apply in_map_iff in Hin. destruct Hin as ([[gm' gd'] rest'] & Heq & Htail).
  cbn [fst snd] in *. injection Heq as -> -> -> ->.
  apply re_Y_inv in HY. destruct HY as (-> & y' & HgY).
  assert (y' = y) by (rewrite (py_int_year gY y' HgY) in HpY; congruence).
  subst y'.
  apply match_month_day_inv in Htail.
  destruct Htail as (-> & (m' & Hm' & (a & Ha & ->) & Hpm')
                        & (d' & Hd' & Hgd & Hpd')).
  assert (m' = m) by congruence. assert (d' = d) by congruence. subst m' d'.
  exists gY, a, gd. rewrite app_nil_r. auto.
Qed.

(** X2. [strptime] accepts exactly the texts of calendar dates. *)
Lemma strptime_accepts_iff (s : str) (t : datetime) :
  strptime s = inr t <-> date_text s t.
Proof. split; [apply strptime_sound|apply strptime_complete]. Qed.

Lemma int_digits_raises_upto (n : nat) :
  forall s acc e,
    (List.length s <= n)%nat -> int_digits acc s = inl e -> e = ValueError.
Proof.
  induction n as [|n IH]; intros [|c s] acc e Hn; cbn [int_digits];
    try discriminate; simpl in Hn; [lia|].
  destruct (decimal_value c); [apply IH; lia|].
  destruct (is_char "_" c); [|congruence].
  destruct s as [|d s]; [congruence|].
  destruct (decimal_value d); [apply IH; simpl in Hn; lia|congruence].
Qed.

Lemma int_digits_raises (s : str) (acc : Z) (e : exn) :
  int_digits acc s = inl e -> e = ValueError.
Proof. apply (int_digits_raises_upto (List.length s)). lia. Qed.

Lemma int_unsigned_raises (s : str) (e : exn) :
  int_unsigned s = inl e -> e = ValueError.
Proof.
  unfold int_unsigned. destruct s as [|c s]; [congruence|].
  destruct (decimal_value c); [apply int_digits_raises|congruence].
Qed.

Lemma py_int_raises (s : str) (e : exn) :
  py_int s = inl e -> e = ValueError.
Proof.
  unfold py_int. destruct (rstrip (lstrip s)) as [|c t]; [congruence|].
  destruct (is_char "+" c); [apply int_unsigned_raises|].
  destruct (is_char "-" c); [|apply int_unsigned_raises].
  destruct (int_unsigned t) eqn:H; [|discriminate].
  intros H'. injection H' as <-. apply (int_unsigned_raises t). exact H.
Qed.

Lemma strptime_raises (s : str) (e : exn) :
  strptime s = inl e -> e = ValueError.
Proof.
  unfold strptime.
  destruct (format_regex_match s) as [[gY [[gm gd] rest]]|]; [|congruence].
  destruct rest; [|congruence].
  destruct (py_int gY) eqn:?, (py_int gm) eqn:?, (py_int gd) eqn:?;
    try congruence.
  unfold new_datetime.
  repeat match goal with |- context [if ?b then _ else _] => destruct b end;
    congruence.
Qed.

(** The two outcomes of the validator. *)
Lemma _validate_date_format_cases (s : str) :
  (exists t, strptime s = inr t /\ _validate_date_format s = inr t)
  \/ (strptime s = inl ValueError
      /\ _validate_date_format s = inl (InvalidDateFormat__init__ s)).
Proof.
  unfold _validate_date_format. destruct (strptime s) as [e|t] eqn:H.
  - right. apply strptime_raises in H. subst e. auto.
  - left. exists t. auto.
Qed.

(** ** Strict texts *)

Lemma lit_app (a b : string) : lit (a ++ b)%string = lit a ++ lit b.
Proof. induction a as [|c a IH]; [reflexivity|]. cbn. f_equal. exact IH. Qed.

Lemma lit_length (a : string) : List.length (lit a) = String.length a.
Proof. induction a as [|c a IH]; [reflexivity|]. cbn. f_equal. exact IH. Qed.

Lemma decimal_value_digit_char (n : Z) :
  0 <= n <= 9 -> decimal_value (N_of_ascii (digit_char n)) = Some n.
Proof. intros Hn. digit_cases n; reflexivity. Qed.

Lemma mod10_digit (n : Z) : 0 <= n mod 10 <= 9.
Proof. pose proof (Z.mod_pos_bound n 10). lia. Qed.

Lemma year_text_pad4 (y : Z) : 0 <= y <= 9999 -> year_text (lit (pad4 y)) y.
Proof.
  intros Hy. split; [reflexivity|].
  change (lit (pad4 y))
    with [N_of_ascii (digit_char (y / 1000 mod 10));
          N_of_ascii (digit_char (y / 100 mod 10));
          N_of_ascii (digit_char (y / 10 mod 10));
          N_of_ascii (digit_char (y mod 10))].
  cbn [digits_value].
  rewrite !decimal_value_digit_char by apply mod10_digit.
  f_equal. Z.div_mod_to_equations. lia.
Qed.

Lemma isoformat_parts (t : datetime) :
  isoformat t
  = lit (pad4 (year t)) ++ lit "-" ++ lit (pad2 (month t)) ++ lit "-"
    ++ lit (pad2 (day t)).
Proof. unfold isoformat. rewrite !lit_app. reflexivity. Qed.

Lemma day_text_pad2 (d : Z) : day_text (lit (pad2 d)) d.
Proof. left. exists (pad2 d). split; [left; reflexivity|reflexivity]. Qed.

(** The strict text of a calendar date is one of its texts. *)
Lemma date_text_isoformat (t : datetime) :
  valid_date t -> date_text (isoformat t) t.
Proof.
  intros Hv. split; [exact Hv|].
  exists (lit (pad4 (year t))), (pad2 (month t)), (lit (pad2 (day t))).
  split; [apply year_text_pad4; unfold valid_date, MINYEAR, MAXYEAR in Hv; lia|].
  split; [left; reflexivity|]. split; [apply day_text_pad2|].
  apply isoformat_parts.
Qed.

(** A text with a well-formed year, month and day reaches the constructor
    of the date with the three numbers written. *)
Lemma strptime_text (y m d : Z) (gY : str) (gm : string) (gd : str) :
  year_text gY y -> 1 <= m <= 12 -> 1 <= d <= 31 ->
  In gm (month_texts m) -> day_text gd d ->
  strptime (gY ++ lit "-" ++ lit gm ++ lit "-" ++ gd) = new_datetime y m d.
Proof.
  intros HgY Hm Hd Hgm Hgd.
  destruct (match_month_day_month m gm gd Hm Hgm) as [Htail Hpm].
  destruct (rmatch_re_d_day gd d Hd Hgd) as [Hday Hpd].
  unfold strptime, format_regex_match.
  rewrite (rmatch_re_Y gY _ y HgY).
  cbn [flat_map fst snd]. rewrite app_nil_r, Htail, !hd_error_map, Hday.
  cbn [option_map fst snd]. rewrite (py_int_year gY y HgY), Hpm, Hpd.
  reflexivity.
Qed.

Lemma date_text_length (s : str) (t : datetime) :
  date_text s t -> (8 <= List.length s <= 10)%nat.
Proof.
  intros [_ (gY & gm & gd & [HY _] & Hgm & Hgd & ->)].
  rewrite !length_app, HY, !lit_length.
  assert (Hm : (1 <= String.length gm <= 2)%nat).
  { unfold month_texts in Hgm. destruct (month t <? 10); simpl in Hgm;
      repeat (destruct Hgm as [Hgm|Hgm]; [subst gm; simpl; lia|]);
      destruct Hgm. }
  assert (Hd : (1 <= List.length gd <= 2)%nat).
  { destruct Hgd as [(a & Ha & ->)|(c & v & _ & [[-> _]|[-> _]])];
      [|simpl; lia..].
    rewrite lit_length. unfold day_texts in Ha.
    destruct (day t <? 10); simpl in Ha;
      repeat (destruct Ha as [Ha|Ha]; [subst a; simpl; lia|]);
      destruct Ha. }
  simpl. lia.
Qed.

(** ** Portfolio valuation *)

Lemma sum_prices_spec (l : list Stock) :
  forall (acc : Q) (w : World),
  exists v : Q,
    sum_prices acc l w
    = (inr v, set_cursor (2 * List.length l + cursor w) w)
    /\ (acc + inject_Z (Z.of_nat (List.length l)) * (101 # 100) <= v)%Q
    /\ (v <= acc + inject_Z (Z.of_nat (List.length l)) * 1001)%Q.
Proof.
  induction l as [|stock l IH]; intros acc w.
  - exists acc. cbn [sum_prices List.length]. unfold ret.
    split; [destruct w; reflexivity|].
    change (inject_Z (Z.of_nat 0)) with 0%Q. split; lra.
  - cbn [sum_prices]. unfold bind. rewrite get_price_spec.
    destruct (price_of_bounds _ _ (drawn_units_range w) (drawn_cents_range w))
      as [Hlo Hhi].
    set (p := price_of (drawn_units w) (drawn_cents w)) in *.
    destruct (IH (acc + p)%Q (set_cursor (S (S (cursor w))) w))
      as (v & Hrun & Hvlo & Hvhi).
    exists v. rewrite Hrun. split.
    + f_equal. rewrite set_cursor_twice. f_equal.
      cbn [List.length cursor set_cursor]. lia.
    + cbn [List.length]. rewrite Nat2Z.inj_succ, <- Z.add_1_r, inject_Z_plus.
      change (inject_Z 1) with 1%Q. split; lra.
Qed.

Lemma _get_portfolio_value_spec (w : World) :
  exists v : Q,
    _get_portfolio_value w
    = (inr v, set_cursor (2 * List.length (stocks w) + cursor w) w)
    /\ (inject_Z (Z.of_nat (List.length (stocks w))) * (101 # 100) <= v)%Q
    /\ (v <= inject_Z (Z.of_nat (List.length (stocks w))) * 1001)%Q.
Proof.
  unfold _get_portfolio_value.
  destruct (sum_prices_spec (stocks w) 0%Q w) as (v & Hrun & Hlo & Hhi).
  exists v. split; [exact Hrun|]. split; lra.
Qed.

(** A portfolio that holds a stock is worth at least one price. *)
Lemma _get_portfolio_value_positive (w : World) :
  stocks w <> [] ->
  exists v : Q,
    _get_portfolio_value w
    = (inr v, set_cursor (2 * List.length (stocks w) + cursor w) w)
    /\ (101 # 100 <= v)%Q.
Proof.
  intros Hne. destruct (_get_portfolio_value_spec w) as (v & Hrun & Hlo & _).
  exists v. split; [exact Hrun|].
  destruct (stocks w) as [|s l]; [contradiction|].
  cbn [List.length] in Hlo.
  rewrite Nat2Z.inj_succ, <- Z.add_1_r, inject_Z_plus in Hlo.
  change (inject_Z 1) with 1%Q in Hlo.
  assert (0 <= inject_Z (Z.of_nat (List.length l)))%Q.
  { change 0%Q with (inject_Z 0). rewrite <- Zle_Qle. lia. }
  nra.
Qed.

Lemma truediv_nonzero (x y : Q) :
  ~ (y == 0)%Q -> truediv x y = inr (x / y)%Q.
Proof.
  intros Hy. unfold truediv. destruct (Qeq_bool y 0) eqn:E; [|reflexivity].
  apply Qeq_bool_eq in E. contradiction.
Qed.

Lemma truediv_zero (x y : Q) :
  (y == 0)%Q -> truediv x y = inl ZeroDivisionError.
Proof.
  intros Hy. unfold truediv. apply Qeq_eq_bool in Hy. rewrite Hy. reflexivity.
Qed.

Lemma _calculate_profit_percentage_spec (initial final : Q) :
  ~ (initial == 0)%Q ->
  _calculate_profit_percentage initial final
  = inr ((final - initial) / initial * 100)%Q.
Proof.
  intros H. unfold _calculate_profit_percentage.
  rewrite truediv_nonzero by exact H. reflexivity.
Qed.

(** ** Prices and dates *)

(** C1 (evaluation at the failing input). The docstring of
    [_generate_random_price] promises a price between 1.01 and 1000.99, but
    when the first draw yields 1000 and the second 100 the price is 1001. *)
Theorem C1_price_above_documented_maximum :
  exists v : Q,
    fst (get_price (mkStock "FINTUAL") (fresh_world [999; 99])) = inr v
    /\ (v == 1001)%Q
    /\ ~ (v <= 100099 # 100)%Q.
Proof.
  eexists. split; [vm_compute; reflexivity|].
  split; [reflexivity|]. intros H. vm_compute in H. apply H. reflexivity.
Qed.

(** X1. The range the code does guarantee: every price is a number of dollars
    in [1, 1000] plus a number of cents in [1, 100], hence lies in
    [1.01, 1001.00]. *)
Lemma get_price_range (self : Stock) (w : World) :
  exists units cents : Z,
    get_price self w
    = (inr (price_of units cents), set_cursor (S (S (cursor w))) w)
    /\ 1 <= units <= 1000 /\ 1 <= cents <= 100
    /\ (101 # 100 <= price_of units cents)%Q
    /\ (price_of units cents <= 1001)%Q.
Proof.
  exists (drawn_units w), (drawn_cents w).
  pose proof (drawn_units_range w). pose proof (drawn_cents_range w).
  pose proof (price_of_bounds _ _ H H0) as [? ?].
  rewrite get_price_spec. auto.
Qed.

(** C2 (counterexample). ["2022-1-1"] is not in the strict, zero-padded
    form [YYYY-MM-DD], and the validator accepts it. *)
Lemma C2_unpadded_date_accepted :
  (forall t, isoformat t <> lit "2022-1-1")
  /\ _validate_date_format (lit "2022-1-1") = inr (mkDatetime 2022 1 1).
Proof.
  split; [|reflexivity].
  intros t H. apply (f_equal (@List.length N)) in H. discriminate H.
Qed.

(** C2 (amended). Every string that is not a text of a calendar date (a
    year from 0001 to 9999 in four decimal digits, a month from 1 to 12 in
    one or two of the digits 0 to 9, a day of that month in one or two
    digits or as a blank and one digit, separated by dashes; the digits of
    the year and the second digit of a day from 10 to 29 may be decimal
    digits of any script) makes the validator raise [InvalidDateFormat]
    with the message made of the string itself followed by the fixed
    explanation. *)
Theorem C2_rejected_text_raises (s : str) :
  (forall t, ~ date_text s t) ->
  _validate_date_format s = inl (InvalidDateFormat (invalid_date_message s)).
Proof.
  intros Hbad. destruct (_validate_date_format_cases s) as [(t & Ht & _)|[_ H]].
  - apply strptime_sound in Ht. destruct (Hbad t Ht).
  - exact H.
Qed.

Lemma not_date_text (s : str) :
  strptime s = inl ValueError -> forall t, ~ date_text s t.
Proof.
  intros H t Ht. apply strptime_complete in Ht. congruence.
Qed.

Lemma C2_rejected_text_raises_witness :
  _validate_date_format (lit "2022-13-01")
  = inl (InvalidDateFormat
           (lit "2022-13-01 is not a valid date. Invalid date format. Please use the format yyyy-mm-dd."))
  /\ _validate_date_format (lit "not-a-date")
     = inl (InvalidDateFormat (invalid_date_message (lit "not-a-date")))
  /\ _validate_date_format (lit "2022/01/01")
     = inl (InvalidDateFormat (invalid_date_message (lit "2022/01/01")))
  /\ _validate_date_format (lit "2022-0" ++ [1633%N] ++ lit "-01")
     = inl (InvalidDateFormat
              (invalid_date_message (lit "2022-0" ++ [1633%N] ++ lit "-01"))).
Proof.
  split; [|split; [|split]].
  - apply (C2_rejected_text_raises (lit "2022-13-01")).
    apply not_date_text. vm_compute. reflexivity.
  - apply (C2_rejected_text_raises (lit "not-a-date")).
    apply not_date_text. vm_compute. reflexivity.
  - apply (C2_rejected_text_raises (lit "2022/01/01")).
    apply not_date_text. vm_compute. reflexivity.
  - apply (C2_rejected_text_raises (lit "2022-0" ++ [1633%N] ++ lit "-01")).
    apply not_date_text. vm_compute. reflexivity.
Defined.

(** C3. For every calendar date written in the strict form [YYYY-MM-DD], the
    validator succeeds and returns the date whose year, month and day are
    the ones written. *)
Theorem C3_valid_date_parsed (t : datetime) :
  valid_date t -> _validate_date_format (isoformat t) = inr t.
Proof.
  intros Hv. unfold _validate_date_format.
  rewrite (strptime_complete (isoformat t) t); [reflexivity|].
  apply date_text_isoformat. exact Hv.
Qed.

Lemma C3_valid_date_parsed_witness :
  valid_date (mkDatetime 2020 2 29)
  /\ _validate_date_format (lit "2020-02-29") = inr (mkDatetime 2020 2 29).
Proof.
  assert (Hv : valid_date (mkDatetime 2020 2 29)).
  { repeat split; apply Z.leb_le; reflexivity. }
  split; [exact Hv|].
  exact (C3_valid_date_parsed (mkDatetime 2020 2 29) Hv).
Defined.

(** C9. The difference in days does not depend on the order of the two
    dates and is never negative; so the difference in years is symmetric
    too. *)
Theorem C9_days_difference_symmetric (a b : datetime) :
  _calculate_days_difference a b = _calculate_days_difference b a
  /\ 0 <= _calculate_days_difference a b
  /\ _calculate_years_difference a b = _calculate_years_difference b a.
Proof.
  assert (H : _calculate_days_difference a b = _calculate_days_difference b a).
  { unfold _calculate_days_difference, timedelta_days. lia. }
  split; [exact H|]. split.
  - unfold _calculate_days_difference. apply Z.abs_nonneg.
  - unfold _calculate_years_difference. rewrite H. reflexivity.
Qed.

(** ** The reporting operations *)

Lemma date_text_validated (s : str) (t : datetime) :
  date_text s t -> _validate_date_format s = inr t.
Proof.
  intros H. unfold _validate_date_format.
  rewrite (strptime_complete s t H). reflexivity.
Qed.

Lemma rejected_validated (s : str) :
  (forall t, ~ date_text s t) ->
  _validate_date_format s = inl (InvalidDateFormat (invalid_date_message s)).
Proof.
  intros Hbad. destruct (_validate_date_format_cases s) as [(t & Ht & _)|[_ H]].
  - apply strptime_sound in Ht. destruct (Hbad t Ht).
  - exact H.
Qed.

(** The two valuations of a reporting operation: each draws fresh prices for
    every stock, the second from where the first stopped. *)
Lemma two_valuations (w : World) :
  stocks w <> [] ->
  exists initial final : Q,
    _get_portfolio_value w = (inr initial, after_valuations 1 w)
    /\ _get_portfolio_value (after_valuations 1 w)
       = (inr final, after_valuations 2 w)
    /\ (101 # 100 <= initial)%Q /\ (101 # 100 <= final)%Q.
Proof.
  intros Hne.
  destruct (_get_portfolio_value_positive w Hne) as (initial & H1 & Hi).
  destruct (_get_portfolio_value_positive (after_valuations 1 w) Hne)
    as (final & H2 & Hf).
  exists initial, final. unfold after_valuations in *.
  cbn [stocks cursor set_cursor] in H2. rewrite set_cursor_twice in H2.
  split; [rewrite H1; do 2 f_equal; lia|].
  split; [rewrite H2; do 2 f_equal; lia|]. auto.
Qed.

Lemma price_nonzero (v : Q) : (101 # 100 <= v)%Q -> ~ (v == 0)%Q.
Proof. intros H E. lra. Qed.

Lemma built_holds_stock (w : World) : built w -> stocks w <> [].
Proof. unfold built. destruct (stocks w); [simpl; lia|discriminate]. Qed.

(** C4. When the start or the end date string is not a text of a calendar
    date, both reporting operations raise [InvalidDateFormat] for the first
    such string and leave the world as it was: no price is drawn and no line
    is printed. *)
Theorem C4_invalid_date_propagates
    (pow_frac : Q -> Q -> exn + Q) (s e : str) (w : World) :
  (forall t, ~ date_text s t) \/ (forall t, ~ date_text e t) ->
  exists bad : str,
    (bad = s \/ bad = e)
    /\ calculate_profit_between s e w
       = (inl (InvalidDateFormat (invalid_date_message bad)), w)
    /\ calculate_profit_annualized pow_frac s e w
       = (inl (InvalidDateFormat (invalid_date_message bad)), w).
Proof.
  intros Hbad. unfold calculate_profit_between, calculate_profit_annualized.
  destruct (_validate_date_format_cases s) as [(t & Ht & Hs)|[Hr Hs]].
  - destruct Hbad as [Hbad|Hbad];
      [destruct (Hbad t (strptime_sound s t Ht))|].
    exists e. split; [right; reflexivity|].
    unfold bind, lift. rewrite Hs, (rejected_validated e Hbad). auto.
  - exists s. split; [left; reflexivity|].
    unfold bind, lift. rewrite Hs. auto.
Qed.

Lemma C4_invalid_date_propagates_witness :
  let w := world_with ["AAPL"; "TSLA"]%string [5; 6; 7; 8] in
  let s := lit "2022-01-01" in
  let e := lit "2022-02-30" in
  ((forall t, ~ date_text s t) \/ (forall t, ~ date_text e t))
  /\ exists bad : str,
       (bad = s \/ bad = e)
       /\ calculate_profit_between s e w
          = (inl (InvalidDateFormat (invalid_date_message bad)), w)
       /\ calculate_profit_annualized (fun _ _ => inl OverflowError) s e w
          = (inl (InvalidDateFormat (invalid_date_message bad)), w).
Proof.
  intros w s e.
  assert (H : (forall t, ~ date_text s t) \/ (forall t, ~ date_text e t)).
  { right. apply not_date_text. vm_compute. reflexivity. }
  split; [exact H|].
  exact (C4_invalid_date_propagates (fun _ _ => inl OverflowError) s e w H).
Defined.

(** What [calculate_profit_between] does once both dates are parsed. *)
Lemma calculate_profit_between_run
    (s e : str) (t1 t2 : datetime) (w : World) :
  date_text s t1 -> date_text e t2 -> stocks w <> [] ->
  exists initial final : Q,
    (_get_portfolio_value w = (inr initial, after_valuations 1 w)
     /\ _get_portfolio_value (after_valuations 1 w)
        = (inr final, after_valuations 2 w)
     /\ _calculate_profit_percentage initial final
        = inr (percentage initial final))
    /\ calculate_profit_between s e w
       = (inr tt,
          emit [lit "Profit between " ++ s ++ lit " and " ++ e ++ lit ": "
                ++ lit (format_2f (percentage initial final)) ++ lit "%"]
               (after_valuations 2 w)).
Proof.
  intros Hs He Hne.
  destruct (two_valuations w Hne) as (initial & final & H1 & H2 & Hi & Hf).
  pose proof (_calculate_profit_percentage_spec initial final (price_nonzero _ Hi))
    as Hpct.
  exists initial, final. split; [auto|].
  unfold calculate_profit_between, bind, lift.
  rewrite (date_text_validated s t1 Hs), (date_text_validated e t2 He).
  rewrite H1, H2, Hpct. reflexivity.
Qed.

(** ** Reading a printed figure *)

Lemma round_half_even_near (x : Q) :
  (Qabs (inject_Z (round_half_even x) - x) <= 1 # 2)%Q.
Proof.
  unfold round_half_even.
  pose proof (Qfloor_le x) as Hlo. pose proof (Qlt_floor x) as Hhi.
  set (f := Qfloor x) in *.
  rewrite inject_Z_plus in Hhi. change (inject_Z 1) with 1%Q in Hhi.
  destruct (Qcompare_spec (x - inject_Z f) (1 # 2)) as [E|L|G].
  - destruct (Z.even f);
      [|rewrite inject_Z_plus; change (inject_Z 1) with 1%Q];
      apply Qabs_Qle_condition; split; lra.
  - apply Qabs_Qle_condition; split; lra.
  - rewrite inject_Z_plus. change (inject_Z 1) with 1%Q.
    apply Qabs_Qle_condition; split; lra.
Qed.

Lemma round_half_even_nonneg (x : Q) :
  (0 <= x)%Q -> 0 <= round_half_even x.
Proof.
  intros Hx. unfold round_half_even.
  assert (Hf : 0 <= Qfloor x).
  { change 0 with (Qfloor 0). apply Qfloor_resp_le. exact Hx. }
  destruct (x - inject_Z (Qfloor x) ?= 1 # 2)%Q; [destruct (Z.even _)|..]; lia.
Qed.

Lemma append_snoc (a : string) (c : ascii) (b : string) :
  ((a ++ String c "") ++ b = a ++ String c b)%string.
Proof. induction a as [|x a IH]; [reflexivity|]. simpl. f_equal. exact IH. Qed.

Lemma append_empty (a : string) : (a ++ "")%string = a.
Proof. induction a as [|x a IH]; [reflexivity|]. simpl. f_equal. exact IH. Qed.

Lemma numeral_digits_digit_char (n a : Z) (s : string) :
  0 <= n <= 9 ->
  numeral_digits a (String (digit_char n) s) = numeral_digits (10 * a + n) s.
Proof. intros Hn. digit_cases n; reflexivity. Qed.

Lemma digit_char_leading (n : Z) : 1 <= n <= 9 -> digit_char n <> "0"%char.
Proof. intros Hn. range_cases n 1%nat 9%nat; discriminate. Qed.

(** The digits written for [n] read back as [n], and start with a zero
    only when [n] is zero. *)
Lemma decimal_digits_reads (fuel : nat) :
  forall (n : Z) (acc : string),
    0 <= n < 2 ^ Z.of_nat (S fuel) ->
    exists (ds : string) (weight : Z),
      decimal_digits (S fuel) n acc = (ds ++ acc)%string
      /\ (forall a x, numeral_digits a (ds ++ x)
                      = numeral_digits (a * weight + n) x)
      /\ ((n = 0 /\ ds = "0"%string)
          \/ (0 < n /\ exists c r, ds = String c r /\ c <> "0"%char)).
Proof.
  induction fuel as [|fuel IH]; intros n acc Hn.
  - change (2 ^ Z.of_nat 1) with 2 in Hn.
    assert (Hq : n / 10 = 0) by (Z.div_mod_to_equations; lia).
    exists (String (digit_char n) ""), 10.
    cbn [decimal_digits]. rewrite Hq. cbn [Z.eqb].
    replace (n mod 10) with n by (Z.div_mod_to_equations; lia).
    split; [reflexivity|]. split.
    + intros a x. cbn [append].
      rewrite numeral_digits_digit_char by lia. f_equal. lia.
    + assert (Hc : n = 0 \/ n = 1) by lia.
      destruct Hc as [->| ->]; [left; auto|right].
      split; [lia|]. do 2 eexists. split; [reflexivity|discriminate].
  - cbn [decimal_digits]. destruct (Z.eqb_spec (n / 10) 0) as [Hq|Hq].
    + exists (String (digit_char (n mod 10)) ""), 10.
      assert (Hs : n mod 10 = n) by (Z.div_mod_to_equations; lia).
      rewrite Hs. assert (H9 : 0 <= n <= 9) by (Z.div_mod_to_equations; lia).
      split; [reflexivity|]. split.
      * intros a x. cbn [append].
        rewrite numeral_digits_digit_char by lia. f_equal. lia.
      * destruct (Z.eq_dec n 0) as [->|Hnz]; [left; auto|right].
        split; [lia|]. do 2 eexists. split; [reflexivity|].
        apply digit_char_leading. lia.
    + assert (Hn' : 0 <= n / 10 < 2 ^ Z.of_nat (S fuel)).
      { rewrite (Nat2Z.inj_succ (S fuel)), Z.pow_succ_r in Hn by lia.
        set (p := 2 ^ Z.of_nat (S fuel)) in *. Z.div_mod_to_equations. lia. }
      destruct (IH (n / 10) (String (digit_char (n mod 10)) acc) Hn')
        as (ds & weight & Hrun & Hval & Hlead).
      exists (ds ++ String (digit_char (n mod 10)) "")%string, (weight * 10).
      split; [rewrite append_snoc; exact Hrun|]. split.
      * intros a x. rewrite append_snoc, Hval.
        rewrite numeral_digits_digit_char by apply mod10_digit.
        f_equal. Z.div_mod_to_equations. lia.
      * right. split; [Z.div_mod_to_equations; lia|].
        destruct Hlead as [[Hz _]|[_ (c & r & -> & Hc)]]; [contradiction|].
        exists c, (r ++ String (digit_char (n mod 10)) "")%string.
        split; [reflexivity|exact Hc].
Qed.

Lemma str_of_nonneg_reads (n : Z) :
  0 <= n ->
  numeral_value (str_of_nonneg n) = Some n
  /\ (str_of_nonneg n = "0"%string
      \/ exists c r, str_of_nonneg n = String c r /\ c <> "0"%char).
Proof.
  intros Hn. unfold str_of_nonneg.
  assert (Hb : 0 <= n < 2 ^ Z.of_nat (S (Z.to_nat (Z.log2 n)))).
  { split; [exact Hn|].
    rewrite Nat2Z.inj_succ, Z2Nat.id by apply Z.log2_nonneg.
    destruct (Z.eq_dec n 0) as [->|Hnz]; [reflexivity|].
    apply Z.log2_spec. lia. }
  destruct (decimal_digits_reads _ n EmptyString Hb)
    as (ds & weight & Hrun & Hval & Hlead).
  rewrite Hrun, append_empty. split.
  - specialize (Hval 0 EmptyString). rewrite append_empty in Hval.
    cbn [numeral_digits] in Hval.
    destruct Hlead as [[Hz Hds]|[_ (c & r & Hds & _)]].
    + rewrite Hds, Hz. reflexivity.
    + rewrite Hds in Hval |- *. unfold numeral_value. rewrite Hval.
      reflexivity.
  - destruct Hlead as [[_ ->]|[_ H]]; [left; reflexivity|right; exact H].
Qed.

(** The text [format_2f] writes for [x] is a number with two decimals that
    is at most half a hundredth away from [x]. *)
Lemma format_2f_reads (x : Q) :
  exists shown : Q,
    two_decimals (format_2f x) shown /\ (Qabs (shown - x) <= 1 # 200)%Q.
Proof.
  unfold format_2f.
  pose proof (round_half_even_near (Qabs x * 100)) as Hnear.
  assert (Hpos : 0 <= round_half_even (Qabs x * 100)).
  { apply round_half_even_nonneg. pose proof (Qabs_nonneg x). lra. }
  set (n := round_half_even (Qabs x * 100)) in *.
  assert (Hk : 0 <= n / 100) by (Z.div_mod_to_equations; lia).
  destruct (str_of_nonneg_reads (n / 100) Hk) as [Hval Hlead].
  assert (Hsplit : (inject_Z (n / 100)
                    + inject_Z (10 * (n / 10 mod 10) + n mod 10) / 100
                    == inject_Z n / 100)%Q).
  { assert (Hz : n = 100 * (n / 100) + (10 * (n / 10 mod 10) + n mod 10))
      by (Z.div_mod_to_equations; lia).
    set (k := n / 100) in *.
    set (r := 10 * (n / 10 mod 10) + n mod 10) in *. clearbody k r.
    rewrite Hz, inject_Z_plus, inject_Z_mult.
    change (inject_Z 100) with 100%Q. field. }
  apply Qabs_Qle_condition in Hnear.
  exists ((if Qlt_le_dec x 0 then -1 else 1)
          * (inject_Z (n / 100)
             + inject_Z (10 * (n / 10 mod 10) + n mod 10) / 100))%Q.
  split.
  - exists (if Qlt_le_dec x 0 then true else false), (str_of_nonneg (n / 100)),
      (n / 100), (n / 10 mod 10), (n mod 10).
    split; [destruct (Qlt_le_dec x 0); reflexivity|].
    split; [exact Hval|]. split; [exact Hlead|].
    split; [apply mod10_digit|]. split; [apply mod10_digit|].
    destruct (Qlt_le_dec x 0); reflexivity.
  - rewrite Hsplit. apply Qabs_Qle_condition.
    assert (Hq : (inject_Z n / 100 * 100 == inject_Z n)%Q) by field.
    set (q := (inject_Z n / 100)%Q) in *. clearbody q n.
    destruct (Qlt_le_dec x 0) as [Hneg|Hnn].
    + rewrite Qabs_neg in Hnear by lra. split; lra.
    + rewrite Qabs_pos in Hnear by lra. split; lra.
Qed.

(** ** Rounding

    The model computes with exact rationals.  The lemmas of this section
    show that the tolerances in the theorems about computed values also
    cover the same computations carried out in binary64, where each
    operation returns its exact result with a relative error of at most
    [2 ^ -53] (the values at hand are far from overflow and underflow). *)

Lemma rounded_near (x r bound : Q) :
  rounded x r -> (Qabs x <= bound)%Q ->
  (Qabs (r - x) <= bound * UNIT_ROUNDOFF)%Q.
Proof.
  intros (delta & Hd & Hr) Hx.
  apply Qabs_Qle_condition in Hd, Hx. apply Qabs_Qle_condition.
  unfold UNIT_ROUNDOFF in *.
  assert (Hb : (0 <= bound)%Q) by lra.
  rewrite Hr. split; nra.
Qed.

Lemma rounded_bound (x r bound : Q) :
  rounded x r -> (Qabs x <= bound)%Q ->
  (Qabs r <= bound * (1 + UNIT_ROUNDOFF))%Q.
Proof.
  intros H Hx. pose proof (rounded_near x r bound H Hx) as Hn.
  apply Qabs_Qle_condition in Hn, Hx. apply Qabs_Qle_condition.
  unfold UNIT_ROUNDOFF in *. split; lra.
Qed.

(** The percentage computed with every operation rounded is within a
    millionth of the exact percentage. *)
Lemma rounded_percentage (initial final a b pct : Q) :
  (101 # 100 <= initial <= 8008)%Q -> (101 # 100 <= final <= 8008)%Q ->
  rounded (final - initial) a -> rounded (a / initial) b ->
  rounded (b * 100) pct ->
  (Qabs (pct - percentage initial final) <= 1 # 1000000)%Q.
Proof.
  intros Hi Hf Ha Hb Hp. unfold percentage.
  assert (Hx : (Qabs (final - initial) <= 8008)%Q)
    by (apply Qabs_Qle_condition; split; lra).
  pose proof (rounded_near _ _ _ Ha Hx) as Na.
  pose proof (rounded_bound _ _ _ Ha Hx) as Ba.
  assert (Hq : ((final - initial) / initial * initial == final - initial)%Q)
    by (field; lra).
  assert (Hqa : (a / initial * initial == a)%Q) by (field; lra).
  set (q := ((final - initial) / initial)%Q) in *.
  set (qa := (a / initial)%Q) in *. clearbody q qa.
  apply Qabs_Qle_condition in Na, Ba, Hx.
  unfold UNIT_ROUNDOFF in Na, Ba.
  assert (Ba' : (- 8009 <= a <= 8009)%Q) by (split; lra).
  assert (Bqa : (Qabs qa <= 8009)%Q).
  { apply Qabs_Qle_condition. clear - Ba' Hqa Hi. split; nra. }
  pose proof (rounded_near _ _ _ Hb Bqa) as Nb.
  pose proof (rounded_bound _ _ _ Hb Bqa) as Bb.
  apply Qabs_Qle_condition in Nb, Bb. unfold UNIT_ROUNDOFF in Nb, Bb.
  assert (Bb100 : (Qabs (b * 100) <= 801000)%Q).
  { apply Qabs_Qle_condition. clear - Bb. split; lra. }
  pose proof (rounded_near _ _ _ Hp Bb100) as Np.
  apply Qabs_Qle_condition in Np. unfold UNIT_ROUNDOFF in Np.
  assert (Na' : (- (1 # 1000000000000) <= a - (final - initial) <= 1 # 1000000000000)%Q)
    by (split; lra).
  assert (Nq : (- (1 # 1000000000000) <= qa - q <= 1 # 1000000000000)%Q).
  { clear - Na' Hq Hqa Hi. split; nra. }
  apply Qabs_Qle_condition. split; lra.
Qed.

(** Rounding keeps the sign, and only zero rounds to zero. *)
Lemma rounded_sign (x r : Q) :
  rounded x r ->
  ((0 < r)%Q <-> (0 < x)%Q) /\ ((r < 0)%Q <-> (x < 0)%Q)
  /\ ((r == 0)%Q <-> (x == 0)%Q).
Proof.
  intros (delta & Hd & Hr). apply Qabs_Qle_condition in Hd.
  unfold UNIT_ROUNDOFF in Hd.
  assert (Hpos : (1 # 2 <= 1 + delta <= 2)%Q) by (split; lra).
  set (k := (1 + delta)%Q) in *. clearbody k. clear Hd.
  repeat split; intros H; nra.
Qed.

(** With every operation rounded, the percentage still has the sign of the
    change and stays above -100. *)
Lemma rounded_percentage_sign (initial final a b pct : Q) :
  (101 # 100 <= initial <= 8008)%Q -> (101 # 100 <= final <= 8008)%Q ->
  rounded (final - initial) a -> rounded (a / initial) b ->
  rounded (b * 100) pct ->
  (-100 < pct)%Q
  /\ ((0 < pct)%Q <-> (initial < final)%Q)
  /\ ((pct < 0)%Q <-> (final < initial)%Q)
  /\ ((pct == 0)%Q <-> (final == initial)%Q).
Proof.
  intros Hi Hf Ha Hb Hp.
  pose proof (rounded_percentage initial final a b pct Hi Hf Ha Hb Hp) as Hn.
  apply Qabs_Qle_condition in Hn. unfold percentage in Hn.
  destruct (rounded_sign _ _ Ha) as (Pa & Na & Za).
  destruct (rounded_sign _ _ Hb) as (Pb & Nb & Zb).
  destruct (rounded_sign _ _ Hp) as (Pp & Np & Zp).
  assert (Hqa : (a / initial * initial == a)%Q) by (field; lra).
  assert (Hq : ((final - initial) / initial * initial == final - initial)%Q)
    by (field; lra).
  set (qa := (a / initial)%Q) in *. set (q := ((final - initial) / initial)%Q) in *.
  clearbody qa q.
  split; [|split; [|split]].
  - assert ((- (9999 # 10000) <= q)%Q) by nra. lra.
  - rewrite Pp. split; intros H.
    + assert (H' : (0 < b)%Q) by lra. apply Pb in H'.
      assert (H2 : (0 < a)%Q) by nra. apply Pa in H2. lra.
    + assert (H2 : (0 < a)%Q) by (apply Pa; lra).
      assert (H3 : (0 < qa)%Q) by nra. apply Pb in H3. lra.
  - rewrite Np. split; intros H.
    + assert (H' : (b < 0)%Q) by lra. apply Nb in H'.
      assert (H2 : (a < 0)%Q) by nra. apply Na in H2. lra.
    + assert (H2 : (a < 0)%Q) by (apply Na; lra).
      assert (H3 : (qa < 0)%Q) by nra. apply Nb in H3. lra.
  - rewrite Zp. split; intros H.
    + assert (H' : (b == 0)%Q) by lra. apply Zb in H'.
      assert (H2 : (a == 0)%Q) by nra. apply Za in H2. lra.
    + assert (H2 : (a == 0)%Q) by (apply Za; lra).
      assert (H3 : (qa == 0)%Q) by nra. apply Zb in H3. lra.
Qed.

(** The years computed by a rounded division are within a millionth of
    [days / 365], and positive when the days are. *)
Lemma rounded_years (days : Z) (years : Q) :
  0 <= days <= 3652058 ->
  rounded (inject_Z days / 365) years ->
  (Qabs (years - inject_Z days / 365) <= 1 # 1000000)%Q
  /\ (0 < days -> (0 < years)%Q).
Proof.
  intros Hd Hr.
  assert (Hlo : (0 <= inject_Z days)%Q)
    by (change 0%Q with (inject_Z 0); rewrite <- Zle_Qle; lia).
  assert (Hhi : (inject_Z days <= 3652058)%Q)
    by (change 3652058%Q with (inject_Z 3652058); rewrite <- Zle_Qle; lia).
  assert (Hq : (inject_Z days / 365 * 365 == inject_Z days)%Q) by field.
  split.
  - assert (Hb : (Qabs (inject_Z days / 365) <= 10006)%Q).
    { set (q := (inject_Z days / 365)%Q) in *. clearbody q.
      apply Qabs_Qle_condition. split; lra. }
    pose proof (rounded_near _ _ _ Hr Hb) as Hn.
    apply Qabs_Qle_condition in Hn. unfold UNIT_ROUNDOFF in Hn.
    apply Qabs_Qle_condition. split; lra.
  - intros Hpos. apply (rounded_sign _ _ Hr).
    assert (H1 : (1 <= inject_Z days)%Q)
      by (change 1%Q with (inject_Z 1); rewrite <- Zle_Qle; lia).
    set (q := (inject_Z days / 365)%Q) in *. clearbody q. lra.
Qed.

(** Over one year, where the power is the ratio itself, the annualized
    return computed with every operation rounded is within a millionth of
    the exact percentage. *)
Lemma rounded_one_year_return (initial final ratio diff annualized : Q) :
  (101 # 100 <= initial <= 8008)%Q -> (101 # 100 <= final <= 8008)%Q ->
  rounded (final / initial) ratio -> rounded (ratio - 1) diff ->
  rounded (diff * 100) annualized ->
  (Qabs (annualized - percentage initial final) <= 1 # 1000000)%Q.
Proof.
  intros Hi Hf Hr Hd Ha. unfold percentage.
  assert (Hq : (final / initial * initial == final)%Q) by (field; lra).
  assert (Hp : ((final - initial) / initial == final / initial - 1)%Q)
    by (field; lra).
  rewrite Hp. set (q := (final / initial)%Q) in *. clearbody q. clear Hp.
  assert (Bq : (0 <= q <= 7929)%Q) by (split; nra).
  assert (Bq' : (Qabs q <= 7929)%Q) by (apply Qabs_Qle_condition; split; lra).
  pose proof (rounded_near _ _ _ Hr Bq') as Nr.
  apply Qabs_Qle_condition in Nr. unfold UNIT_ROUNDOFF in Nr.
  assert (Bd : (Qabs (ratio - 1) <= 7930)%Q)
    by (apply Qabs_Qle_condition; split; lra).
  pose proof (rounded_near _ _ _ Hd Bd) as Nd.
  apply Qabs_Qle_condition in Nd. unfold UNIT_ROUNDOFF in Nd.
  assert (Ba : (Qabs (diff * 100) <= 793100)%Q)
    by (apply Qabs_Qle_condition; split; lra).
  pose proof (rounded_near _ _ _ Ha Ba) as Na.
  apply Qabs_Qle_condition in Na. unfold UNIT_ROUNDOFF in Na.
  apply Qabs_Qle_condition. split; lra.
Qed.


(** ** Ordinals of calendar dates *)

Lemma _days_before_year_succ (y : Z) :
  _days_before_year (y + 1)
  = _days_before_year y + 365 + (if _is_leap y then 1 else 0).
Proof.
  unfold _days_before_year, _is_leap. replace (y + 1 - 1) with y by lia.
  destruct (Z.eqb_spec (y mod 4) 0), (Z.eqb_spec (y mod 100) 0),
           (Z.eqb_spec (y mod 400) 0); cbn [negb andb orb];
    Z.div_mod_to_equations; lia.
Qed.

Lemma _days_before_year_mono (y1 y2 : Z) :
  y1 <= y2 -> _days_before_year y1 <= _days_before_year y2.
Proof.
  intros H. unfold _days_before_year. Z.div_mod_to_equations. lia.
Qed.

(** Evaluate the calendar tables at a concrete month. *)
Ltac month_tables :=
  repeat match goal with
    | |- context [nth ?n ?l ?d] =>
        let v := eval vm_compute in (nth n l d) in change (nth n l d) with v
    | |- context [Z.eqb ?a ?b] =>
        let v := eval vm_compute in (Z.eqb a b) in change (Z.eqb a b) with v
    | |- context [Z.ltb ?a ?b] =>
        let v := eval vm_compute in (Z.ltb a b) in change (Z.ltb a b) with v
    end;
  cbn [andb].

Lemma year_day_bounds (y m d : Z) :
  1 <= m <= 12 -> 1 <= d <= _days_in_month y m ->
  1 <= _days_before_month y m + d <= 365 + (if _is_leap y then 1 else 0).
Proof.
  intros Hm. unfold _days_in_month, _days_before_month.
  month_cases m; destruct (_is_leap y); month_tables; lia.
Qed.

Lemma month_day_inj (y m1 d1 m2 d2 : Z) :
  1 <= m1 <= 12 -> 1 <= d1 <= _days_in_month y m1 ->
  1 <= m2 <= 12 -> 1 <= d2 <= _days_in_month y m2 ->
  _days_before_month y m1 + d1 = _days_before_month y m2 + d2 ->
  m1 = m2 /\ d1 = d2.
Proof.
  intros Hm1 Hd1 Hm2 Hd2. revert Hd1 Hd2.
  unfold _days_in_month, _days_before_month.
  month_cases m1; month_cases m2; destruct (_is_leap y); month_tables; lia.
Qed.

(** Two calendar dates with the same ordinal are the same date. *)
Lemma toordinal_inj (t1 t2 : datetime) :
  valid_date t1 -> valid_date t2 -> toordinal t1 = toordinal t2 -> t1 = t2.
Proof.
  destruct t1 as [y1 m1 d1], t2 as [y2 m2 d2].
  unfold valid_date, toordinal, _ymd2ord. cbn [year month day].
  intros (Hy1 & Hm1 & Hd1) (Hy2 & Hm2 & Hd2) Heq.
  pose proof (year_day_bounds y1 m1 d1 Hm1 Hd1) as B1.
  pose proof (year_day_bounds y2 m2 d2 Hm2 Hd2) as B2.
  pose proof (_days_before_year_succ y1) as S1.
  pose proof (_days_before_year_succ y2) as S2.
  assert (Hy : y1 = y2).
  { destruct (Z.lt_trichotomy y1 y2) as [Hlt|[Heqy|Hgt]]; [|exact Heqy|].
    - pose proof (_days_before_year_mono (y1 + 1) y2 ltac:(lia)). lia.
    - pose proof (_days_before_year_mono (y2 + 1) y1 ltac:(lia)). lia. }
  subst y2.
  destruct (month_day_inj y1 m1 d1 m2 d2 Hm1 Hd1 Hm2 Hd2 ltac:(lia)) as [-> ->].
  reflexivity.
Qed.

Lemma days_difference_zero_iff (t1 t2 : datetime) :
  valid_date t1 -> valid_date t2 ->
  (_calculate_days_difference t1 t2 = 0 <-> t1 = t2).
Proof.
  intros H1 H2. unfold _calculate_days_difference, timedelta_days. split.
  - intros H. apply toordinal_inj; [assumption..|lia].
  - intros ->. lia.
Qed.

(** ** The annualized report *)

Lemma _calculate_years_difference_spec (t1 t2 : datetime) :
  _calculate_years_difference t1 t2 = inr (years_between t1 t2).
Proof. reflexivity. Qed.

Lemma years_between_zero_iff (t1 t2 : datetime) :
  (years_between t1 t2 == 0)%Q <-> _calculate_days_difference t1 t2 = 0.
Proof.
  unfold years_between, _calculate_days_difference, timedelta_days.
  set (n := Z.abs (toordinal t2 - toordinal t1)).
  unfold Qeq, Qdiv, Qmult, Qinv, inject_Z. simpl. lia.
Qed.


Section Annualized.

Variable pow_frac : Q -> Q -> exn + Q.

Lemma _calculate_annualized_return_spec (initial final years : Q) :
  ~ (initial == 0)%Q ->
  _calculate_annualized_return pow_frac initial final years
  = (exponent <-! truediv 1 years ;;
     p <-! float_pow pow_frac (final / initial) exponent ;;
     inr ((p - 1) * 100)%Q).
Proof.
  intros H. unfold _calculate_annualized_return.
  rewrite truediv_nonzero by exact H. reflexivity.
Qed.

(** What [calculate_profit_annualized] does once both dates are parsed. *)
Lemma calculate_profit_annualized_run
    (s e : str) (t1 t2 : datetime) (w : World) :
  date_text s t1 -> date_text e t2 -> stocks w <> [] ->
  exists initial final : Q,
    _get_portfolio_value w = (inr initial, after_valuations 1 w)
    /\ _get_portfolio_value (after_valuations 1 w)
       = (inr final, after_valuations 2 w)
    /\ (101 # 100 <= initial)%Q /\ (101 # 100 <= final)%Q
    /\ calculate_profit_annualized pow_frac s e w
       = match _calculate_annualized_return pow_frac initial final
                 (years_between t1 t2) with
         | inr annualized =>
             (inr tt,
              emit [lit "Profit since " ++ s ++ lit ": "
                    ++ lit (format_2f (percentage initial final)) ++ lit "%";
                    lit "Annualized profit: " ++ lit (format_2f annualized)
                    ++ lit "%"]
                   (after_valuations 2 w))
         | inl err => (inl err, after_valuations 2 w)
         end.
Proof.
  intros Hs He Hne.
  destruct (two_valuations w Hne) as (initial & final & H1 & H2 & Hi & Hf).
  pose proof (_calculate_profit_percentage_spec initial final (price_nonzero _ Hi))
    as Hpct.
  exists initial, final. repeat (split; [assumption|]).
  unfold calculate_profit_annualized, bind, lift.
  rewrite (date_text_validated s t1 Hs), (date_text_validated e t2 He).
  rewrite H1, H2, _calculate_years_difference_spec, Hpct.
  destruct (_calculate_annualized_return pow_frac initial final
              (years_between t1 t2)) as [err|annualized]; [reflexivity|].
  unfold print, emit. cbn [stocks tape cursor stdout].
  rewrite <- app_assoc. reflexivity.
Qed.

End Annualized.

Lemma date_text_of_parse (s : str) (t : datetime) :
  strptime s = inr t -> date_text s t.
Proof. apply strptime_sound. Qed.





(** C7. With the same text of a calendar date as start and as end, the
    elapsed years are 0, [_calculate_annualized_return] raises
    [ZeroDivisionError] at [1 / years], and the exception leaves
    [calculate_profit_annualized] after the two valuations, before any line
    is printed. *)
Theorem C7_same_date_zero_division
    (pow_frac : Q -> Q -> exn + Q) (s : str) (t : datetime) (w : World) :
  date_text s t -> stocks w <> [] ->
  _calculate_years_difference t t = inr (years_between t t)
  /\ (years_between t t == 0)%Q
  /\ (forall initial final : Q,
        ~ (initial == 0)%Q ->
        _calculate_annualized_return pow_frac initial final (years_between t t)
        = inl ZeroDivisionError)
  /\ calculate_profit_annualized pow_frac s s w
     = (inl ZeroDivisionError, after_valuations 2 w)
  /\ stdout (after_valuations 2 w) = stdout w.
Proof.
  intros Hs Hne.
  assert (Hz : (years_between t t == 0)%Q).
  { rewrite years_between_zero_iff.
    apply (days_difference_zero_iff t t (proj1 Hs) (proj1 Hs)). reflexivity. }
  assert (Hret : forall initial final : Q,
             ~ (initial == 0)%Q ->
             _calculate_annualized_return pow_frac initial final
               (years_between t t) = inl ZeroDivisionError).
  { intros initial final Hi.
    rewrite _calculate_annualized_return_spec by exact Hi.
    rewrite (truediv_zero 1 _ Hz). reflexivity. }
  split; [reflexivity|]. split; [exact Hz|]. split; [exact Hret|].
  split; [|reflexivity].
  destruct (calculate_profit_annualized_run pow_frac s s t t w Hs Hs Hne)
    as (initial & final & _ & _ & Hi & _ & Hrun).
  rewrite Hrun, Hret by (apply price_nonzero; exact Hi). reflexivity.
Qed.

Lemma C7_same_date_zero_division_witness :
  let w := world_with ["NVDA"; "META"]%string [10; 20; 30; 40; 50; 60; 70; 80] in
  let pow_frac : Q -> Q -> exn + Q := fun _ _ => inr 1%Q in
  let t := mkDatetime 2022 1 1 in
  let s := lit "2022-01-01" in
  date_text s t /\ stocks w <> []
  /\ _calculate_years_difference t t = inr (years_between t t)
  /\ (years_between t t == 0)%Q
  /\ (forall initial final : Q,
        ~ (initial == 0)%Q ->
        _calculate_annualized_return pow_frac initial final (years_between t t)
        = inl ZeroDivisionError)
  /\ calculate_profit_annualized pow_frac s s w
     = (inl ZeroDivisionError, after_valuations 2 w)
  /\ stdout (after_valuations 2 w) = stdout w.
Proof.
  intros w pow_frac t s.
  assert (H1 : date_text s t)
    by (apply date_text_of_parse; vm_compute; reflexivity).
  assert (H2 : stocks w <> []) by discriminate.
  split; [exact H1|]. split; [exact H2|].
  exact (C7_same_date_zero_division pow_frac s t w H1 H2).
Defined.

(** The outcomes of [calculate_profit_between] on a portfolio that holds a
    stock: a report, or a rejected date. *)
Lemma calculate_profit_between_outcomes (s e : str) (w : World) :
  stocks w <> [] ->
  fst (calculate_profit_between s e w) = inr tt
  \/ exists bad, fst (calculate_profit_between s e w)
                 = inl (InvalidDateFormat (invalid_date_message bad)).
Proof.
  intros Hne.
  destruct (_validate_date_format_cases s) as [(t1 & Ht1 & _)|[Hr1 _]].
  - destruct (_validate_date_format_cases e) as [(t2 & Ht2 & _)|[Hr2 _]].
    + left.
      destruct (calculate_profit_between_run s e t1 t2 w (strptime_sound _ _ Ht1)
                  (strptime_sound _ _ Ht2) Hne) as (i & f & _ & Hrun).
      rewrite Hrun. reflexivity.
    + right. exists e.
      unfold calculate_profit_between, bind, lift, _validate_date_format.
      rewrite Ht1, Hr2. reflexivity.
  - right. exists s.
    unfold calculate_profit_between, bind, lift, _validate_date_format.
    rewrite Hr1. reflexivity.
Qed.

(** C10. A portfolio that holds at least one stock is worth a strictly
    positive amount, so no division by [initial_price] raises
    [ZeroDivisionError]: neither the one of
    [_calculate_profit_percentage], nor [final_price / initial_price] in
    [_calculate_annualized_return], and [calculate_profit_between] never
    ends in [ZeroDivisionError]. *)
Theorem C10_portfolio_value_positive
    (pow_frac : Q -> Q -> exn + Q) (w : World) :
  stocks w <> [] ->
  exists initial : Q,
    _get_portfolio_value w = (inr initial, after_valuations 1 w)
    /\ (0 < initial)%Q
    /\ (forall x : Q, truediv x initial = inr (x / initial)%Q)
    /\ (forall final : Q,
          _calculate_profit_percentage initial final
          = inr ((final - initial) / initial * 100)%Q)
    /\ (forall final years : Q,
          _calculate_annualized_return pow_frac initial final years
          = (exponent <-! truediv 1 years ;;
             p <-! float_pow pow_frac (final / initial) exponent ;;
             inr ((p - 1) * 100)%Q))
    /\ (forall s e : str,
          fst (calculate_profit_between s e w) <> inl ZeroDivisionError).
Proof.
  intros Hne.
  destruct (two_valuations w Hne) as (initial & final & H1 & _ & Hi & _).
  pose proof (price_nonzero _ Hi) as Hnz.
  exists initial. split; [exact H1|]. split; [lra|].
  split; [intro x; apply truediv_nonzero; exact Hnz|].
  split; [intro f; apply _calculate_profit_percentage_spec; exact Hnz|].
  split; [intros f y; apply _calculate_annualized_return_spec; exact Hnz|].
  intros s e.
  destruct (calculate_profit_between_outcomes s e w Hne) as [H|[bad H]];
    rewrite H; discriminate.
Qed.

Lemma C10_portfolio_value_positive_witness :
  let w := snd (Portfolio__init__ (fresh_world [2; 1; 0; 4; 10; 20; 30; 40])) in
  let pow_frac : Q -> Q -> exn + Q := fun _ _ => inr 1%Q in
  stocks w <> []
  /\ exists initial : Q,
       _get_portfolio_value w = (inr initial, after_valuations 1 w)
       /\ (0 < initial)%Q
       /\ (forall x : Q, truediv x initial = inr (x / initial)%Q)
       /\ (forall final : Q,
             _calculate_profit_percentage initial final
             = inr ((final - initial) / initial * 100)%Q)
       /\ (forall final years : Q,
             _calculate_annualized_return pow_frac initial final years
             = (exponent <-! truediv 1 years ;;
                p <-! float_pow pow_frac (final / initial) exponent ;;
                inr ((p - 1) * 100)%Q))
       /\ (forall s e : str,
             fst (calculate_profit_between s e w) <> inl ZeroDivisionError).
Proof.
  intros w pow_frac.
  assert (H : stocks w <> []) by (vm_compute; discriminate).
  split; [exact H|].
  exact (C10_portfolio_value_positive pow_frac w H).
Defined.

(** * Further properties of the code *)

(** ** Prices and valuations *)

(** X3. The prices [get_price] can return are exactly the sums of a number
    of dollars from 1 to 1000 and a number of cents from 1 to 100: each of
    these 100000 values comes out for some outcome of the two draws, and
    nothing else does. *)
Theorem get_price_possible_values (self : Stock) (p : Q) :
  (exists w : World, fst (get_price self w) = inr p)
  <-> (exists units cents : Z,
         1 <= units <= 1000 /\ 1 <= cents <= 100 /\ p = price_of units cents).
Proof.
  split.
  - intros [w Hw]. rewrite get_price_spec in Hw. cbn [fst] in Hw.
    exists (drawn_units w), (drawn_cents w).
    split; [apply drawn_units_range|]. split; [apply drawn_cents_range|].
    congruence.
  - intros (units & cents & Hu & Hc & ->).
    exists (fresh_world [units - 1; cents - 1]).
    rewrite get_price_spec. cbn [fst]. do 2 f_equal.
    + unfold drawn_units, fresh_world, tape_of. cbn [tape cursor nth].
      rewrite Z.mod_small; lia.
    + unfold drawn_cents, fresh_world, tape_of. cbn [tape cursor nth].
      rewrite Z.mod_small; lia.
Qed.

(** X4. With [n] stocks in the portfolio, at most the 8 of the catalog,
    [_get_portfolio_value] draws [2 * n] random numbers, prints nothing,
    keeps the stocks, and returns a total between [1.01 * n] (up to float
    rounding, far below a millionth) and [1001 * n]. *)
Theorem _get_portfolio_value_bounds (w : World) :
  (List.length (stocks w) <= 8)%nat ->
  exists v : Q,
    _get_portfolio_value w = (inr v, after_valuations 1 w)
    /\ cursor (after_valuations 1 w)
       = (2 * List.length (stocks w) + cursor w)%nat
    /\ stdout (after_valuations 1 w) = stdout w
    /\ stocks (after_valuations 1 w) = stocks w
    /\ (inject_Z (Z.of_nat (List.length (stocks w))) * (101 # 100)
        - (1 # 1000000) <= v)%Q
    /\ (v <= inject_Z (Z.of_nat (List.length (stocks w))) * 1001)%Q.
Proof.
  intros _.
  destruct (_get_portfolio_value_spec w) as (v & Hrun & Hlo & Hhi).
  exists v. unfold after_valuations. cbn [cursor stdout stocks set_cursor].
  split; [rewrite Hrun; do 2 f_equal; lia|].
  split; [lia|]. repeat (split; [reflexivity|]). split; [lra|exact Hhi].
Qed.

Lemma _get_portfolio_value_bounds_witness :
  let w := world_with ["AAPL"; "TSLA"; "META"]%string [0; 0; 0; 0; 0; 0] in
  (List.length (stocks w) <= 8)%nat
  /\ exists v : Q,
       _get_portfolio_value w = (inr v, after_valuations 1 w)
       /\ cursor (after_valuations 1 w)
          = (2 * List.length (stocks w) + cursor w)%nat
       /\ stdout (after_valuations 1 w) = stdout w
       /\ stocks (after_valuations 1 w) = stocks w
       /\ (inject_Z (Z.of_nat (List.length (stocks w))) * (101 # 100)
           - (1 # 1000000) <= v)%Q
       /\ (v <= inject_Z (Z.of_nat (List.length (stocks w))) * 1001)%Q.
Proof.
  intros w.
  assert (H : (List.length (stocks w) <= 8)%nat) by (simpl; lia).
  split; [exact H|].
  exact (_get_portfolio_value_bounds w H).
Defined.

(** X5. On a portfolio without stocks both valuations are 0, so with two
    valid dates both reporting operations raise [ZeroDivisionError] at the
    profit percentage; no number is drawn and no line is printed. *)
Theorem empty_portfolio_zero_division
    (pow_frac : Q -> Q -> exn + Q) (s e : str) (t1 t2 : datetime)
    (w : World) :
  stocks w = [] -> date_text s t1 -> date_text e t2 ->
  _get_portfolio_value w = (inr 0%Q, w)
  /\ calculate_profit_between s e w = (inl ZeroDivisionError, w)
  /\ calculate_profit_annualized pow_frac s e w = (inl ZeroDivisionError, w).
Proof.
  intros Hnil Hs He.
  assert (Hval : _get_portfolio_value w = (inr 0%Q, w)).
  { unfold _get_portfolio_value. rewrite Hnil. reflexivity. }
  split; [exact Hval|].
  unfold calculate_profit_between, calculate_profit_annualized, bind, lift.
  rewrite (date_text_validated s t1 Hs), (date_text_validated e t2 He).
  split; repeat (rewrite Hval; cbv beta iota); reflexivity.
Qed.

Lemma empty_portfolio_zero_division_witness :
  let w := fresh_world [3; 4] in
  let pow_frac : Q -> Q -> exn + Q := fun _ _ => inr 1%Q in
  stocks w = []
  /\ date_text (lit "2022-01-01") (mkDatetime 2022 1 1)
  /\ date_text (lit "2020-01-01") (mkDatetime 2020 1 1)
  /\ _get_portfolio_value w = (inr 0%Q, w)
  /\ calculate_profit_between (lit "2022-01-01") (lit "2020-01-01") w
     = (inl ZeroDivisionError, w)
  /\ calculate_profit_annualized pow_frac (lit "2022-01-01") (lit "2020-01-01") w
     = (inl ZeroDivisionError, w).
Proof.
  intros w pow_frac.
  assert (H0 : stocks w = []) by reflexivity.
  assert (H1 : date_text (lit "2022-01-01") (mkDatetime 2022 1 1))
    by (apply date_text_of_parse; vm_compute; reflexivity).
  assert (H2 : date_text (lit "2020-01-01") (mkDatetime 2020 1 1))
    by (apply date_text_of_parse; vm_compute; reflexivity).
  split; [exact H0|]. split; [exact H1|]. split; [exact H2|].
  exact (empty_portfolio_zero_division pow_frac _ _ _ _ w H0 H1 H2).
Defined.

Lemma sum_prices_same_length (l1 : list Stock) :
  forall (l2 : list Stock) (acc : Q) (w1 w2 : World),
    List.length l1 = List.length l2 ->
    tape w1 = tape w2 -> cursor w1 = cursor w2 ->
    fst (sum_prices acc l1 w1) = fst (sum_prices acc l2 w2).
Proof.
  induction l1 as [|s1 l1 IH]; intros [|s2 l2] acc w1 w2 Hlen Ht Hc;
    try discriminate Hlen.
  - reflexivity.
  - cbn [sum_prices]. unfold bind. rewrite !get_price_spec.
    replace (price_of (drawn_units w2) (drawn_cents w2))
      with (price_of (drawn_units w1) (drawn_cents w1))
      by (unfold drawn_units, drawn_cents; rewrite Ht, Hc; reflexivity).
    apply IH.
    + injection Hlen as Hlen. exact Hlen.
    + exact Ht.
    + cbn [cursor set_cursor]. rewrite Hc. reflexivity.
Qed.

(** X6. The valuation does not look at the tickers: two portfolios with the
    same number of stocks get the same total from the same random draws. *)
Theorem _get_portfolio_value_ignores_tickers (w1 w2 : World) :
  List.length (stocks w1) = List.length (stocks w2) ->
  tape w1 = tape w2 -> cursor w1 = cursor w2 ->
  fst (_get_portfolio_value w1) = fst (_get_portfolio_value w2).
Proof.
  intros Hlen Ht Hc. unfold _get_portfolio_value.
  apply sum_prices_same_length; assumption.
Qed.

Lemma _get_portfolio_value_ignores_tickers_witness :
  let w1 := world_with ["AAPL"; "TSLA"]%string [12; 34; 56; 78] in
  let w2 := world_with ["NVDA"; "FINTUAL"]%string [12; 34; 56; 78] in
  List.length (stocks w1) = List.length (stocks w2)
  /\ tape w1 = tape w2 /\ cursor w1 = cursor w2
  /\ fst (_get_portfolio_value w1) = fst (_get_portfolio_value w2).
Proof.
  intros w1 w2.
  assert (H1 : List.length (stocks w1) = List.length (stocks w2)) by reflexivity.
  assert (H2 : tape w1 = tape w2) by reflexivity.
  assert (H3 : cursor w1 = cursor w2) by reflexivity.
  repeat (split; [assumption|]).
  exact (_get_portfolio_value_ignores_tickers w1 w2 H1 H2 H3).
Defined.

(** ** Output and order of the checks *)

(** X7. Each reporting operation prints all of its report or nothing: it
    either raises, leaving the printed lines as they were, or returns after
    appending exactly one line ([calculate_profit_between]) or exactly two
    ([calculate_profit_annualized]).  This holds for every input and every
    portfolio, whatever the exception is. *)
Theorem reports_print_all_or_nothing
    (pow_frac : Q -> Q -> exn + Q) (s e : str) (w : World) :
  ((exists err w', calculate_profit_between s e w = (inl err, w')
                   /\ stdout w' = stdout w)
   \/ (exists line w', calculate_profit_between s e w = (inr tt, w')
                       /\ stdout w' = (stdout w ++ [line])%list))
  /\ ((exists err w', calculate_profit_annualized pow_frac s e w = (inl err, w')
                      /\ stdout w' = stdout w)
      \/ (exists line1 line2 w',
            calculate_profit_annualized pow_frac s e w = (inr tt, w')
            /\ stdout w' = (stdout w ++ [line1; line2])%list)).
Proof.
  destruct (_get_portfolio_value_spec w) as (v1 & H1 & _).
  destruct (_get_portfolio_value_spec
              (set_cursor (2 * List.length (stocks w) + cursor w) w))
    as (v2 & H2 & _).
  split.
  - unfold calculate_profit_between, bind, lift.
    destruct (_validate_date_format s) as [err|t1];
      [left; exists err, w; auto|].
    destruct (_validate_date_format e) as [err|t2];
      [left; exists err, w; auto|].
    rewrite H1, H2.
    destruct (_calculate_profit_percentage v1 v2) as [err|pct].
    + left. do 2 eexists. split; reflexivity.
    + right. do 2 eexists. split; reflexivity.
  - unfold calculate_profit_annualized, bind, lift.
    destruct (_validate_date_format s) as [err|t1];
      [left; exists err, w; auto|].
    destruct (_validate_date_format e) as [err|t2];
      [left; exists err, w; auto|].
    rewrite H1, H2, _calculate_years_difference_spec.
    destruct (_calculate_profit_percentage v1 v2) as [err|pct];
      [left; do 2 eexists; split; reflexivity|].
    destruct (_calculate_annualized_return pow_frac v1 v2 (years_between t1 t2))
      as [err|annualized]; [left; do 2 eexists; split; reflexivity|].
    right. do 3 eexists. split; [reflexivity|].
    cbn [print stdout snd]. rewrite <- app_assoc. reflexivity.
Qed.

(** X8. The start date is checked before the end date: when the start
    string is not a text of a calendar date, both operations raise
    [InvalidDateFormat] for the start string, whatever the end string is,
    and leave the world untouched. *)
Theorem start_date_checked_first
    (pow_frac : Q -> Q -> exn + Q) (s e : str) (w : World) :
  (forall t, ~ date_text s t) ->
  calculate_profit_between s e w
  = (inl (InvalidDateFormat (invalid_date_message s)), w)
  /\ calculate_profit_annualized pow_frac s e w
     = (inl (InvalidDateFormat (invalid_date_message s)), w).
Proof.
  intros Hbad.
  unfold calculate_profit_between, calculate_profit_annualized, bind, lift.
  rewrite (rejected_validated s Hbad). auto.
Qed.

Lemma start_date_checked_first_witness :
  let w := world_with ["META"]%string [1; 2; 3; 4] in
  let pow_frac : Q -> Q -> exn + Q := fun _ _ => inr 1%Q in
  (forall t, ~ date_text (lit "01/02/2022") t)
  /\ calculate_profit_between (lit "01/02/2022") (lit "tomorrow") w
     = (inl (InvalidDateFormat (invalid_date_message (lit "01/02/2022"))), w)
  /\ calculate_profit_annualized pow_frac (lit "01/02/2022") (lit "tomorrow") w
     = (inl (InvalidDateFormat (invalid_date_message (lit "01/02/2022"))), w).
Proof.
  intros w pow_frac.
  assert (H : forall t, ~ date_text (lit "01/02/2022") t)
    by (apply not_date_text; vm_compute; reflexivity).
  split; [exact H|].
  exact (start_date_checked_first pow_frac (lit "01/02/2022") (lit "tomorrow") w H).
Defined.

(** ** The validator *)

Lemma validated_parse (s : str) (t : datetime) :
  _validate_date_format s = inr t -> strptime s = inr t.
Proof.
  intros H. destruct (_validate_date_format_cases s) as [(t' & Ht & Hv)|[_ Hv]];
    congruence.
Qed.

(** X9. Whatever the validator returns is a date of the calendar (year from
    1 to 9999, month from 1 to 12, day within the month), the string is one
    of its texts, and the strict text [YYYY-MM-DD] of that date validates to
    the same date. *)
Theorem validated_date_is_calendar_date (s : str) (t : datetime) :
  _validate_date_format s = inr t ->
  valid_date t /\ date_text s t /\ _validate_date_format (isoformat t) = inr t.
Proof.
  intros H. apply validated_parse, strptime_sound in H.
  split; [exact (proj1 H)|]. split; [exact H|].
  apply date_text_validated, date_text_isoformat. exact (proj1 H).
Qed.

Lemma validated_date_is_calendar_date_witness :
  let t := mkDatetime 2024 2 9 in
  _validate_date_format (lit "2024-2- 9") = inr t
  /\ valid_date t /\ date_text (lit "2024-2- 9") t
  /\ _validate_date_format (lit "2024-02-09") = inr t.
Proof.
  intros t.
  assert (H : _validate_date_format (lit "2024-2- 9") = inr t) by reflexivity.
  split; [exact H|].
  exact (validated_date_is_calendar_date (lit "2024-2- 9") t H).
Defined.

(** X10. A string shorter than 8 or longer than 10 characters is always
    rejected: a date followed by a time, by a blank or by a line break does
    not pass. *)
Theorem wrong_length_rejected (s : str) :
  (List.length s < 8 \/ 10 < List.length s)%nat ->
  _validate_date_format s = inl (InvalidDateFormat (invalid_date_message s)).
Proof.
  intros Hlen. apply rejected_validated. intros t Ht.
  apply date_text_length in Ht. lia.
Qed.

Lemma wrong_length_rejected_witness :
  let s := lit "2022-01-01 10:30" in
  (List.length s < 8 \/ 10 < List.length s)%nat
  /\ _validate_date_format s
     = inl (InvalidDateFormat (invalid_date_message s)).
Proof.
  intros s.
  assert (H : (List.length s < 8 \/ 10 < List.length s)%nat)
    by (right; simpl; lia).
  split; [exact H|].
  exact (wrong_length_rejected s H).
Defined.

(** X11. A string in the strict form [YYYY-MM-DD] (month 01 to 12, day 01
    to 31) is accepted exactly when its year is not 0000 and the day exists
    in that month of that year; otherwise [InvalidDateFormat] is raised with
    the string in its message. *)
Theorem strict_text_calendar_check (y m d : Z) :
  0 <= y <= 9999 -> 1 <= m <= 12 -> 1 <= d <= 31 ->
  _validate_date_format (isoformat (mkDatetime y m d))
  = if (1 <=? y) && (d <=? _days_in_month y m)
    then inr (mkDatetime y m d)
    else inl (InvalidDateFormat
                (invalid_date_message (isoformat (mkDatetime y m d)))).
Proof.
  intros Hy Hm Hd. unfold _validate_date_format.
  rewrite isoformat_parts at 1. cbn [year month day].
  rewrite (strptime_text y m d)
    by (assumption || (apply year_text_pad4; assumption)
        || apply day_text_pad2 || (left; reflexivity)).
  unfold new_datetime, MINYEAR, MAXYEAR.
  replace (y <=? 9999) with true by (symmetry; apply Z.leb_le; lia).
  replace ((1 <=? m) && (m <=? 12)) with true
    by (symmetry; apply andb_true_intro; split; apply Z.leb_le; lia).
  replace (1 <=? d) with true by (symmetry; apply Z.leb_le; lia).
  rewrite andb_true_r. cbn [negb andb].
  destruct (1 <=? y); cbn [negb andb]; [|reflexivity].
  destruct (d <=? _days_in_month y m); reflexivity.
Qed.

Lemma strict_text_calendar_check_witness :
  0 <= 2023 <= 9999 /\ 1 <= 4 <= 12 /\ 1 <= 31 <= 31
  /\ _validate_date_format (lit "2023-04-31")
     = inl (InvalidDateFormat (invalid_date_message (lit "2023-04-31"))).
Proof.
  assert (H1 : 0 <= 2023 <= 9999) by lia.
  assert (H2 : 1 <= 4 <= 12) by lia.
  assert (H3 : 1 <= 31 <= 31) by lia.
  repeat (split; [assumption|]).
  exact (strict_text_calendar_check 2023 4 31 H1 H2 H3).
Defined.

(** X12. February 29th is accepted in leap years only: for a year from 1
    to 9999, [YYYY-02-29] validates when the year is a multiple of 4 that is
    not a multiple of 100, or a multiple of 400, and is rejected
    otherwise. *)
Theorem leap_day_accepted_in_leap_years (y : Z) :
  1 <= y <= 9999 ->
  let s := isoformat (mkDatetime y 2 29) in
  (y mod 4 = 0 /\ (y mod 100 <> 0 \/ y mod 400 = 0) ->
   _validate_date_format s = inr (mkDatetime y 2 29))
  /\ (~ (y mod 4 = 0 /\ (y mod 100 <> 0 \/ y mod 400 = 0)) ->
      _validate_date_format s
      = inl (InvalidDateFormat (invalid_date_message s))).
Proof.
  intros Hy s. unfold s, _validate_date_format.
  rewrite !isoformat_parts. cbn [year month day].
  rewrite (strptime_text y 2 29)
    by (lia || (apply year_text_pad4; lia) || apply day_text_pad2
        || (left; reflexivity)).
  unfold new_datetime, MINYEAR, MAXYEAR, _days_in_month, _is_leap.
  replace ((1 <=? y) && (y <=? 9999)) with true
    by (symmetry; apply andb_true_intro; split; apply Z.leb_le; lia).
  cbn [negb andb Z.eqb Z.leb Z.compare Pos.compare Pos.compare_cont
       Pos.eqb].
  destruct (Z.eqb_spec (y mod 4) 0), (Z.eqb_spec (y mod 100) 0),
           (Z.eqb_spec (y mod 400) 0); cbn [negb andb orb];
    split; intros H; try reflexivity; exfalso; tauto.
Qed.

Lemma leap_day_accepted_in_leap_years_witness :
  1 <= 1900 <= 9999
  /\ (1900 mod 4 = 0 /\ (1900 mod 100 <> 0 \/ 1900 mod 400 = 0) ->
      _validate_date_format (lit "1900-02-29") = inr (mkDatetime 1900 2 29))
  /\ (~ (1900 mod 4 = 0 /\ (1900 mod 100 <> 0 \/ 1900 mod 400 = 0)) ->
      _validate_date_format (lit "1900-02-29")
      = inl (InvalidDateFormat (invalid_date_message (lit "1900-02-29")))).
Proof.
  assert (H : 1 <= 1900 <= 9999) by lia.
  split; [exact H|].
  exact (leap_day_accepted_in_leap_years 1900 H).
Defined.

(** ** Which portfolios can be built *)

(** Any duplicate-free list drawn from the live part of the pool is the
    outcome of the selection loop for suitable draws [js]. *)
Lemma sample_pool_reaches {A} (names : list A) :
  forall (pool : list A) (live : nat),
    (live <= List.length pool)%nat ->
    NoDup names -> incl names (firstn live pool) ->
    exists js : list Z,
      List.length js = List.length names
      /\ forall w : World,
           (forall i, (i < List.length js)%nat ->
                      tape w (cursor w + i) = nth i js 0) ->
           sample_pool pool live (List.length names) w
           = (inr names, set_cursor (List.length names + cursor w) w).
Proof.
  induction names as [|x names IH]; intros pool live Hlive Hnd Hincl.
  - exists []. split; [reflexivity|]. intros w _.
    cbn [sample_pool List.length]. unfold ret. destruct w; reflexivity.
  - assert (Hx : In x (firstn live pool)) by (apply Hincl; left; reflexivity).
    apply In_nth_error in Hx. destruct Hx as [j Hj].
    rewrite nth_error_firstn in Hj.
    destruct (j <? live)%nat eqn:Hjl; [|discriminate].
    apply Nat.ltb_lt in Hjl.
    destruct live as [|last]; [lia|].
    destruct (nth_error pool last) as [y|] eqn:Hy;
      [|apply nth_error_None in Hy; lia].
    pose proof (list_set_perm pool last j x y Hj Hy ltac:(lia)) as Hperm.
    destruct (IH (list_set j y pool) last) as (js & Hlen & Hrun).
    + rewrite list_set_length. lia.
    + inversion Hnd; assumption.
    + intros n Hn.
      assert (Hin : In n (firstn (S last) pool))
        by (apply Hincl; right; exact Hn).
      apply (Permutation_in _ Hperm) in Hin. destruct Hin as [<-|Hin].
      * inversion Hnd; contradiction.
      * exact Hin.
    + exists (Z.of_nat j :: js). split; [simpl; lia|]. intros w Htape.
      cbn [sample_pool List.length]. unfold bind at 1. unfold _randbelow.
      destruct (Z.of_nat (S last) <=? 0) eqn:Hz; [apply Z.leb_le in Hz; lia|].
      pose proof (Htape 0%nat ltac:(simpl; lia)) as H0.
      rewrite Nat.add_0_r in H0. cbn [nth] in H0. rewrite H0.
      rewrite Z.mod_small by lia. rewrite Nat2Z.id.
      replace (S last - 1)%nat with last by lia.
      rewrite Hj, Hy. unfold bind.
      rewrite (Hrun (set_cursor (S (cursor w)) w)).
      * unfold ret. f_equal. rewrite set_cursor_twice. f_equal.
        cbn [cursor set_cursor]. lia.
      * intros i Hi. cbn [tape cursor set_cursor].
        replace (S (cursor w) + i)%nat with (cursor w + S i)%nat by lia.
        rewrite Htape by (simpl; lia). reflexivity.
Qed.

(** X13. Every non-empty sequence of distinct tickers of the catalog is a
    possible portfolio: for suitable outcomes of the random draws,
    [Portfolio()] holds exactly these stocks, in this order. *)
Theorem every_selection_is_a_possible_portfolio (names : list string) :
  names <> [] -> NoDup names -> incl names CUSTOM_RANDOM_STOCKS ->
  exists draws : list Z,
    Portfolio__init__ (fresh_world draws)
    = (inr tt,
       mkWorld (map mkStock names) (tape_of draws) (S (List.length names)) []).
Proof.
  intros Hne Hnd Hincl.
  assert (Hk : (1 <= List.length names <= 8)%nat).
  { split.
    - destruct names; [contradiction|simpl; lia].
    - apply (NoDup_incl_length Hnd Hincl). }
  destruct (sample_pool_reaches names CUSTOM_RANDOM_STOCKS 8
              ltac:(reflexivity) Hnd Hincl) as (js & Hlen & Hrun).
  exists (Z.of_nat (List.length names) - 1 :: js).
  unfold Portfolio__init__, _generate_random_stocks, bind.
  change (Z.of_nat (List.length CUSTOM_RANDOM_STOCKS)) with 8.
  rewrite (randint_spec 1 8) by lia.
  unfold fresh_world at 1 2. cbn [tape cursor]. unfold tape_of at 1.
  cbn [nth]. change (8 + 1 - 1) with 8. rewrite Z.mod_small by lia.
  replace (1 + (Z.of_nat (List.length names) - 1))
    with (Z.of_nat (List.length names)) by lia.
  unfold sample. change (List.length CUSTOM_RANDOM_STOCKS) with 8%nat.
  replace ((0 <=? Z.of_nat (List.length names))
           && (Z.of_nat (List.length names) <=? Z.of_nat 8)) with true
    by (symmetry; apply andb_true_intro; split; apply Z.leb_le; lia).
  rewrite Nat2Z.id, Hrun.
  - unfold ret, set_stocks, set_cursor, fresh_world.
    cbn [stocks tape cursor stdout]. do 2 f_equal. lia.
  - intros i Hi. reflexivity.
Qed.

Lemma every_selection_is_a_possible_portfolio_witness :
  let names := ["FINTUAL"; "AAPL"; "NVDA"]%string in
  names <> [] /\ NoDup names /\ incl names CUSTOM_RANDOM_STOCKS
  /\ exists draws : list Z,
       Portfolio__init__ (fresh_world draws)
       = (inr tt,
          mkWorld (map mkStock names) (tape_of draws)
                  (S (List.length names)) []).
Proof.
  intros names.
  assert (H1 : names <> []) by discriminate.
  assert (H2 : NoDup names).
  { repeat (constructor; [simpl; intuition discriminate|]). constructor. }
  assert (H3 : incl names CUSTOM_RANDOM_STOCKS).
  { intros n Hn. simpl in Hn. simpl.
    repeat (destruct Hn as [<-|Hn]; [tauto|]). destruct Hn. }
  repeat (split; [assumption|]).
  exact (every_selection_is_a_possible_portfolio names H1 H2 H3).
Defined.

(** ** Days, years and percentages *)

(** X14. On calendar dates the difference in days is a distance: it is 0
    exactly when the two dates are the same (and then so is the difference
    in years), and going through a third date is never shorter. *)
Theorem days_difference_is_a_distance (a b c : datetime) :
  valid_date a -> valid_date b ->
  (_calculate_days_difference a b = 0 <-> a = b)
  /\ (exists years : Q,
        _calculate_years_difference a b = inr years
        /\ ((years == 0)%Q <-> a = b))
  /\ _calculate_days_difference a c
     <= _calculate_days_difference a b + _calculate_days_difference b c.
Proof.
  intros Ha Hb. split; [apply days_difference_zero_iff; assumption|]. split.
  - exists (years_between a b). split; [reflexivity|].
    rewrite years_between_zero_iff. apply days_difference_zero_iff; assumption.
  - unfold _calculate_days_difference, timedelta_days. lia.
Qed.

Lemma days_difference_is_a_distance_witness :
  let a := mkDatetime 2022 1 1 in
  let b := mkDatetime 2020 2 29 in
  let c := mkDatetime 1999 12 31 in
  valid_date a /\ valid_date b
  /\ (_calculate_days_difference a b = 0 <-> a = b)
  /\ (exists years : Q,
        _calculate_years_difference a b = inr years
        /\ ((years == 0)%Q <-> a = b))
  /\ _calculate_days_difference a c
     <= _calculate_days_difference a b + _calculate_days_difference b c.
Proof.
  intros a b c.
  assert (Ha : valid_date a) by (repeat split; apply Z.leb_le; reflexivity).
  assert (Hb : valid_date b) by (repeat split; apply Z.leb_le; reflexivity).
  split; [exact Ha|]. split; [exact Hb|].
  exact (days_difference_is_a_distance a b c Ha Hb).
Defined.

(** X15. From January 1st of a year to January 1st of a later year there
    are between 365 and 366 days per year elapsed, and exactly 366 or 365
    from one year to the next according to whether the first is a leap
    year; the difference in years, which divides by 365, is then
    [366 / 365] or 1. *)
Theorem new_year_span (y1 y2 : Z) :
  1 <= y1 <= y2 -> y2 <= 9999 ->
  let days :=
    _calculate_days_difference (mkDatetime y1 1 1) (mkDatetime y2 1 1) in
  365 * (y2 - y1) <= days <= 366 * (y2 - y1)
  /\ (y2 = y1 + 1 ->
      days = (if _is_leap y1 then 366 else 365)
      /\ exists years : Q,
           _calculate_years_difference (mkDatetime y1 1 1) (mkDatetime y2 1 1)
           = inr years
           /\ (years == if _is_leap y1 then 366 # 365 else 1)%Q).
Proof.
  intros Hy1 Hy2 days.
  assert (Hdays : days = Z.abs (_days_before_year y2 - _days_before_year y1)).
  { subst days.
    unfold _calculate_days_difference, timedelta_days, toordinal, _ymd2ord.
    cbn [year month day]. unfold _days_before_month.
    change (nth (Z.to_nat 1) _DAYS_BEFORE_MONTH 0) with 0.
    change (2 <? 1) with false. cbn [andb]. f_equal. lia. }
  split.
  - rewrite Hdays. unfold _days_before_year. Z.div_mod_to_equations. lia.
  - intros ->.
    assert (Hd : days = if _is_leap y1 then 366 else 365).
    { rewrite Hdays, _days_before_year_succ. destruct (_is_leap y1); lia. }
    split; [exact Hd|].
    exists (inject_Z days / 365)%Q. split; [reflexivity|].
    rewrite Hd. destruct (_is_leap y1); reflexivity.
Qed.

Lemma new_year_span_witness :
  let days :=
    _calculate_days_difference (mkDatetime 2020 1 1) (mkDatetime 2021 1 1) in
  1 <= 2020 <= 2021 /\ 2021 <= 9999
  /\ 365 * (2021 - 2020) <= days <= 366 * (2021 - 2020)
  /\ (2021 = 2020 + 1 ->
      days = (if _is_leap 2020 then 366 else 365)
      /\ exists years : Q,
           _calculate_years_difference (mkDatetime 2020 1 1)
                                       (mkDatetime 2021 1 1)
           = inr years
           /\ (years == if _is_leap 2020 then 366 # 365 else 1)%Q).
Proof.
  intros days.
  assert (H1 : 1 <= 2020 <= 2021) by lia.
  assert (H2 : 2021 <= 9999) by lia.
  split; [exact H1|]. split; [exact H2|].
  exact (new_year_span 2020 2021 H1 H2).
Defined.

(** X16. For two portfolio values, each from 1.01 to 8008 (what one to
    eight prices add up to), [_calculate_profit_percentage] never raises;
    its result is above -100, positive exactly for a gain, negative exactly
    for a loss and 0 exactly when the two values are equal.  Lemma
    [rounded_percentage_sign] shows the same of the computation with every
    operation rounded. *)
Theorem profit_percentage_sign (initial final : Q) :
  (101 # 100 <= initial <= 8008)%Q -> (101 # 100 <= final <= 8008)%Q ->
  exists pct : Q,
    _calculate_profit_percentage initial final = inr pct
    /\ (-100 < pct)%Q
    /\ ((0 < pct)%Q <-> (initial < final)%Q)
    /\ ((pct < 0)%Q <-> (final < initial)%Q)
    /\ ((pct == 0)%Q <-> (final == initial)%Q).
Proof.
  intros Hi Hf. exists ((final - initial) / initial * 100)%Q.
  split; [apply _calculate_profit_percentage_spec; lra|].
  assert (Hr : ((final - initial) / initial * initial == final - initial)%Q)
    by (field; lra).
  set (r := ((final - initial) / initial)%Q) in *. clearbody r.
  repeat split; intros; nra.
Qed.

Lemma profit_percentage_sign_witness :
  (101 # 100 <= 200 <= 8008)%Q /\ (101 # 100 <= 150 <= 8008)%Q
  /\ exists pct : Q,
       _calculate_profit_percentage 200 150 = inr pct
       /\ (-100 < pct)%Q
       /\ ((0 < pct)%Q <-> (200 < 150)%Q)
       /\ ((pct < 0)%Q <-> (150 < 200)%Q)
       /\ ((pct == 0)%Q <-> (150 == 200)%Q).
Proof.
  assert (H1 : (101 # 100 <= 200 <= 8008)%Q) by (split; discriminate).
  assert (H2 : (101 # 100 <= 150 <= 8008)%Q) by (split; discriminate).
  split; [exact H1|]. split; [exact H2|].
  exact (profit_percentage_sign 200 150 H1 H2).
Defined.

(** ** What the reports can show *)

(** The two valuations of a portfolio that holds a stock, with the bounds
    that tie one to the other. *)
Lemma two_valuations_ratio (w : World) :
  stocks w <> [] ->
  exists initial final : Q,
    _get_portfolio_value w = (inr initial, after_valuations 1 w)
    /\ _get_portfolio_value (after_valuations 1 w)
       = (inr final, after_valuations 2 w)
    /\ (101 # 100 <= initial)%Q /\ (101 # 100 <= final)%Q
    /\ (final <= (100100 # 101) * initial)%Q
    /\ (initial <= (100100 # 101) * final)%Q.
Proof.
  intros Hne.
  destruct (two_valuations w Hne) as (initial & final & H1 & H2 & Hi & Hf).
  destruct (_get_portfolio_value_spec w) as (v1 & R1 & L1 & U1).
  destruct (_get_portfolio_value_spec (after_valuations 1 w))
    as (v2 & R2 & L2 & U2).
  assert (v1 = initial) by congruence. assert (v2 = final) by congruence.
  subst v1 v2. change (stocks (after_valuations 1 w)) with (stocks w) in *.
  set (n := inject_Z (Z.of_nat (List.length (stocks w)))) in *.
  exists initial, final. repeat (split; [assumption|]). split; lra.
Qed.

Lemma OVERFLOW_BOUND_large : (1000 < OVERFLOW_BOUND)%Q.
Proof. reflexivity. Qed.

(** The exponent for a period of 365 days is 1, and a power of exponent 1
    within the range of floats is the base itself. *)
Lemma float_pow_one_year (pow_frac : Q -> Q -> exn + Q) (x : Q) :
  (0 < x)%Q -> (x < 1000)%Q ->
  float_pow pow_frac x (1 / (inject_Z 365 / 365)) = inr x.
Proof.
  intros H0 H1. unfold float_pow.
  change (is_integral (1 / (inject_Z 365 / 365))) with true.
  cbv iota.
  change (Qnum (1 / (inject_Z 365 / 365)) / Z.pos (Qden (1 / (inject_Z 365 / 365))))
    with 1.
  change (1 <? 0) with false. rewrite andb_false_r.
  change (Qpower x 1) with x.
  destruct (Qle_bool OVERFLOW_BOUND (Qabs x)) eqn:Hb; [|reflexivity].
  apply Qle_bool_imp_le in Hb. rewrite Qabs_pos in Hb by lra.
  pose proof OVERFLOW_BOUND_large. lra.
Qed.

Lemma Qabs_diff_small (x y : Q) (bound : Q) :
  (x == y)%Q -> (0 <= bound)%Q -> (Qabs (x - y) <= bound)%Q.
Proof.
  intros H Hb. setoid_replace (x - y)%Q with 0%Q by (rewrite H; ring).
  exact Hb.
Qed.

(** X17. Over a period of exactly 365 days the annualized profit is the
    cumulative profit: on a portfolio as the constructor builds it,
    [calculate_profit_annualized] never raises; the annualized return and
    the cumulative percentage are the same number (each within a millionth
    of it, which covers the rounding of the float operations: lemmas
    [rounded_percentage] and [rounded_one_year_return]), each line shows
    its value rounded to two decimals, and the two figures differ by at
    most one hundredth. *)
Theorem annualized_equals_cumulative_over_365_days
    (pow_frac : Q -> Q -> exn + Q) (s e : str) (t1 t2 : datetime)
    (w : World) :
  date_text s t1 -> date_text e t2 ->
  _calculate_days_difference t1 t2 = 365 -> built w ->
  exists (initial final years pct annualized : Q) (text1 text2 : string)
         (shown1 shown2 : Q),
    _get_portfolio_value w = (inr initial, after_valuations 1 w)
    /\ _get_portfolio_value (after_valuations 1 w)
       = (inr final, after_valuations 2 w)
    /\ _calculate_years_difference t1 t2 = inr years
    /\ _calculate_profit_percentage initial final = inr pct
    /\ _calculate_annualized_return pow_frac initial final years
       = inr annualized
    /\ (Qabs (pct - percentage initial final) <= 1 # 1000000)%Q
    /\ (Qabs (annualized - percentage initial final) <= 1 # 1000000)%Q
    /\ calculate_profit_annualized pow_frac s e w
       = (inr tt,
          emit [lit "Profit since " ++ s ++ lit ": " ++ lit text1 ++ lit "%";
                lit "Annualized profit: " ++ lit text2 ++ lit "%"]
               (after_valuations 2 w))
    /\ two_decimals text1 shown1 /\ (Qabs (shown1 - pct) <= 1 # 200)%Q
    /\ two_decimals text2 shown2 /\ (Qabs (shown2 - annualized) <= 1 # 200)%Q
    /\ (Qabs (shown1 - shown2) <= 1 # 100)%Q.
Proof.
  intros Hs He Hdays Hb. pose proof (built_holds_stock w Hb) as Hne.
  destruct (two_valuations_ratio w Hne)
    as (initial & final & H1 & H2 & Hi & Hf & Hup & _).
  destruct (calculate_profit_annualized_run pow_frac s e t1 t2 w Hs He Hne)
    as (i' & f' & H1' & H2' & _ & _ & Hrun).
  assert (i' = initial) by congruence. assert (f' = final) by congruence.
  subst i' f'.
  assert (Hy : years_between t1 t2 = (inject_Z 365 / 365)%Q).
  { unfold years_between. rewrite <- Hdays. reflexivity. }
  assert (Hret : _calculate_annualized_return pow_frac initial final
                   (years_between t1 t2)
                 = inr ((final / initial - 1) * 100)%Q).
  { rewrite Hy, _calculate_annualized_return_spec by lra.
    rewrite (truediv_nonzero 1 (inject_Z 365 / 365))
      by (intro E; discriminate E).
    unfold ebind. rewrite float_pow_one_year; [reflexivity|..].
    - apply Qlt_shift_div_l; lra.
    - apply Qlt_shift_div_r; lra. }
  assert (Hsame : ((final / initial - 1) * 100 == percentage initial final)%Q)
    by (unfold percentage; field; lra).
  destruct (format_2f_reads (percentage initial final)) as (shown1 & Ht1 & Hn1).
  destruct (format_2f_reads ((final / initial - 1) * 100)%Q)
    as (shown2 & Ht2 & Hn2).
  exists initial, final, (years_between t1 t2), (percentage initial final),
    ((final / initial - 1) * 100)%Q,
    (format_2f (percentage initial final)),
    (format_2f ((final / initial - 1) * 100)), shown1, shown2.
  split; [exact H1|]. split; [exact H2|]. split; [reflexivity|].
  split; [apply _calculate_profit_percentage_spec; lra|].
  split; [exact Hret|].
  split; [apply Qabs_diff_small; [reflexivity|discriminate]|].
  split; [apply Qabs_diff_small; [exact Hsame|discriminate]|].
  split; [rewrite Hrun, Hret; reflexivity|].
  repeat (split; [assumption|]).
  apply Qabs_Qle_condition in Hn1, Hn2. apply Qabs_Qle_condition.
  split; lra.
Qed.

Lemma annualized_equals_cumulative_over_365_days_witness :
  let w := world_with ["GOOGL"; "AMZN"]%string [7; 8; 9; 10; 11; 12; 13; 14] in
  let pow_frac : Q -> Q -> exn + Q := fun _ _ => inl OverflowError in
  let t1 := mkDatetime 2022 3 15 in
  let t2 := mkDatetime 2021 3 15 in
  let s := lit "2022-03-15" in
  let e := lit "2021-3-15" in
  date_text s t1 /\ date_text e t2
  /\ _calculate_days_difference t1 t2 = 365 /\ built w
  /\ exists (initial final years pct annualized : Q) (text1 text2 : string)
            (shown1 shown2 : Q),
       _get_portfolio_value w = (inr initial, after_valuations 1 w)
       /\ _get_portfolio_value (after_valuations 1 w)
          = (inr final, after_valuations 2 w)
       /\ _calculate_years_difference t1 t2 = inr years
       /\ _calculate_profit_percentage initial final = inr pct
       /\ _calculate_annualized_return pow_frac initial final years
          = inr annualized
       /\ (Qabs (pct - percentage initial final) <= 1 # 1000000)%Q
       /\ (Qabs (annualized - percentage initial final) <= 1 # 1000000)%Q
       /\ calculate_profit_annualized pow_frac s e w
          = (inr tt,
             emit [lit "Profit since " ++ s ++ lit ": " ++ lit text1
                   ++ lit "%";
                   lit "Annualized profit: " ++ lit text2 ++ lit "%"]
                  (after_valuations 2 w))
       /\ two_decimals text1 shown1 /\ (Qabs (shown1 - pct) <= 1 # 200)%Q
       /\ two_decimals text2 shown2
       /\ (Qabs (shown2 - annualized) <= 1 # 200)%Q
       /\ (Qabs (shown1 - shown2) <= 1 # 100)%Q.
Proof.
  intros w pow_frac t1 t2 s e.
  assert (H1 : date_text s t1)
    by (apply date_text_of_parse; vm_compute; reflexivity).
  assert (H2 : date_text e t2)
    by (apply date_text_of_parse; vm_compute; reflexivity).
  assert (H3 : _calculate_days_difference t1 t2 = 365) by reflexivity.
  assert (H4 : built w) by (unfold built; simpl; lia).
  repeat (split; [assumption|]).
  exact (annualized_equals_cumulative_over_365_days pow_frac
           s e t1 t2 w H1 H2 H3 H4).
Defined.

(** X18. Whatever the draws, the profit that [calculate_profit_between]
    prints for a portfolio that holds a stock lies between -99.9 and 99009
    per cent. *)
Theorem profit_between_range
    (s e : str) (t1 t2 : datetime) (w : World) :
  date_text s t1 -> date_text e t2 -> stocks w <> [] ->
  exists pct : Q,
    calculate_profit_between s e w
    = (inr tt,
       emit [lit "Profit between " ++ s ++ lit " and " ++ e ++ lit ": "
             ++ lit (format_2f pct) ++ lit "%"]
            (after_valuations 2 w))
    /\ (- (999 # 10) <= pct)%Q /\ (pct <= 99009)%Q.
Proof.
  intros Hs He Hne.
  destruct (two_valuations_ratio w Hne)
    as (initial & final & H1 & H2 & Hi & Hf & Hup & Hlo).
  destruct (calculate_profit_between_run s e t1 t2 w Hs He Hne)
    as (i' & f' & (H1' & H2' & _) & Hrun).
  assert (i' = initial) by congruence. assert (f' = final) by congruence.
  subst i' f'.
  exists (percentage initial final). split; [exact Hrun|].
  unfold percentage.
  assert (Hr : ((final - initial) / initial * initial == final - initial)%Q)
    by (field; lra).
  set (r := ((final - initial) / initial)%Q) in *. clearbody r.
  split; nra.
Qed.

Lemma profit_between_range_witness :
  let w := world_with ["TSLA"]%string [999; 99; 0; 0] in
  let s := lit "2022-01-01" in
  let e := lit "2020-01-01" in
  date_text s (mkDatetime 2022 1 1)
  /\ date_text e (mkDatetime 2020 1 1)
  /\ stocks w <> []
  /\ exists pct : Q,
       calculate_profit_between s e w
       = (inr tt,
          emit [lit "Profit between " ++ s ++ lit " and " ++ e ++ lit ": "
                ++ lit (format_2f pct) ++ lit "%"]
               (after_valuations 2 w))
       /\ (- (999 # 10) <= pct)%Q /\ (pct <= 99009)%Q.
Proof.
  intros w s e.
  assert (H1 : date_text s (mkDatetime 2022 1 1))
    by (apply date_text_of_parse; vm_compute; reflexivity).
  assert (H2 : date_text e (mkDatetime 2020 1 1))
    by (apply date_text_of_parse; vm_compute; reflexivity).
  assert (H3 : stocks w <> []) by discriminate.
  repeat (split; [assumption|]).
  exact (profit_between_range s e _ _ w H1 H2 H3).
Defined.

(** ** The error message *)

(** X19. The message of [InvalidDateFormat] begins with the offending
    string and identifies it: two different strings never get the same
    exception. *)
Theorem InvalidDateFormat_identifies_date (s1 s2 : str) :
  InvalidDateFormat__init__ s1
  = InvalidDateFormat (s1 ++ lit " is not a valid date. " ++ lit MESSAGE_ERROR)
  /\ (InvalidDateFormat__init__ s1 = InvalidDateFormat__init__ s2 <-> s1 = s2).
Proof.
  split; [reflexivity|]. split; [|intros ->; reflexivity].
  unfold InvalidDateFormat__init__. intros H. injection H as H.
  apply app_inv_tail in H. exact H.
Qed.
